(** * delaunay.py: a shallow embedding and its specification

    The program draws a "low-poly" picture: it samples random points,
    optionally thins them out, hands them to an external Delaunay
    triangulator, colours every triangle from a two-stop gradient or from a
    reference image, and paints the triangles.

    Number model.  Python integers are [Z].  A Python float is an IEEE 754
    double.  Where the program computes with floats (the position on the
    gradient and the colour at it) the model computes with Rocq's primitive
    binary64 floats, rounding, infinities and NaN included.  A float that
    only passes through (a centroid coordinate, a distance, the result of
    [math.sqrt]) is carried as the rational it denotes, [Q]: comparisons and
    truncation of doubles are exact on it.  The scale of the sampling
    rectangle is such a rational; its products are taken exactly, which is
    what the doubles give at the scale 1.25 the script uses.  [int(x)] is
    truncation toward zero.  [math.sqrt], the triangulator, the centroid and
    the image loader are not part of the file under study and are taken as
    parameters (class [Externals]). *)

From Stdlib Require Import String ZArith QArith Qround Qabs List Bool Lia.
From Stdlib Require Import Sorted Permutation Lqa.
From Stdlib Require Floats.
Import ListNotations.
Local Open Scope Z_scope.

Set Implicit Arguments.

(** ** Data *)

Definition point : Type := (Z * Z)%type.
Definition triangle : Type := list point.
Definition color : Type := (Z * Z * Z)%type.
Definition grad : Type := (color * color)%type.

Definition red (c : color) : Z := fst (fst c).
Definition green (c : color) : Z := snd (fst c).
Definition blue (c : color) : Z := snd c.

(** [int(x)] on a float: truncation toward zero. *)
Definition int_of (x : Q) : Z := Z.quot (Qnum x) (Zpos (Qden x)).

Definition point_eqb (p q : point) : bool :=
  (fst p =? fst q) && (snd p =? snd q).

(** ** cart_to_screen (lines 14-19) *)

Definition cart_to_screen (points : list point) (size : Z * Z) : list point :=
  map (fun p => (fst p, snd size - snd p)) points.

(** ** calculate_color (lines 25-40)

    [calculate_color] is the arithmetic of lines 27-38 carried out exactly:
    what Python computes for an int position, and the real-number reading
    of the formula.  For a float position Python rounds each operation to a
    double; that is [calculate_color_py] below. *)

Definition calculate_color (g : grad) (val : Q) : color :=
  let slope_r := red (snd g) - red (fst g) in
  let slope_g := green (snd g) - green (fst g) in
  let slope_b := blue (snd g) - blue (fst g) in
  let r := int_of (inject_Z (red (fst g)) + inject_Z slope_r * val) in
  let g' := int_of (inject_Z (green (fst g)) + inject_Z slope_g * val) in
  let b := int_of (inject_Z (blue (fst g)) + inject_Z slope_b * val) in
  let r := Z.min (Z.max r 0) 255 in
  let g' := Z.min (Z.max g' 0) 255 in
  let b := Z.min (Z.max b 0) 255 in
  (r, g', b).

(** The channel as the specification words it: start + (end - start) * t,
    truncated toward zero, then clamped to [0, 255]. *)
Definition spec_channel (s e : Z) (t : Q) : Z :=
  let exact := (inject_Z s + (inject_Z e - inject_Z s) * t)%Q in
  Z.min (Z.max (int_of exact) 0) 255.

Definition channel_ok (x : Z) : Prop := 0 <= x <= 255.
Definition color_ok (c : color) : Prop :=
  channel_ok (red c) /\ channel_ok (green c) /\ channel_ok (blue c).

(** ** Python exceptions, exits and the state-and-abort monad

    A computation threads a state, and either returns a value or stops: by
    [sys.exit(code)] or by an uncaught exception.  The state survives a stop
    (what was printed or drawn before stays printed or drawn). *)

Inductive pyerr : Type :=
| ValueError | IndexError | KeyError | IOError | ZeroDivisionError | NameError
| OverflowError.

Inductive stop : Type :=
| Exit (code : Z)
| Raise (e : pyerr).

Inductive res (A : Type) : Type :=
| Ret (a : A)
| Stop (s : stop).
Arguments Stop {A} s.

Definition M (S A : Type) : Type := S -> S * res A.

Definition ret {S A} (a : A) : M S A := fun s => (s, Ret a).
Definition bind {S A B} (m : M S A) (f : A -> M S B) : M S B :=
  fun s => match m s with
           | (s', Ret a) => f a s'
           | (s', Stop e) => (s', Stop e)
           end.
Definition halt {S A} (e : stop) : M S A := fun s => (s, Stop e).
Definition lift_res {S A} (r : res A) : M S A := fun s => (s, r).

Declare Scope py_scope.
Delimit Scope py_scope with py.
Notation "x <- m ;; k" := (bind m (fun x => k))
  (at level 61, m at next level, right associativity) : py_scope.
Notation "m ;; k" := (bind m (fun _ => k))
  (at level 61, right associativity) : py_scope.
Local Open Scope py_scope.

Definition when {S} (b : bool) (m : M S unit) : M S unit :=
  if b then m else ret tt.

(** ** The random source

    [source] is the stream of raw values the generator will hand out and
    [drawn] counts the values consumed so far.  [random.randrange(k)] takes
    the next raw value into [0, k) and raises ValueError on an empty range. *)

Record rng : Type := { source : nat -> Z; drawn : nat }.

Definition randrange (k : Z) : M rng Z :=
  fun g => if k <=? 0 then (g, Stop (Raise ValueError))
           else ({| source := source g; drawn := S (drawn g) |},
                 Ret (source g (drawn g) mod k)).

(** ** Truthiness and comparisons as Python evaluates them *)

Definition Qltb (x y : Q) : bool := negb (Qle_bool y x).

(** A float-or-None is true when it is a non-zero float. *)
Definition truthy_dist (d : option Q) : bool :=
  match d with None => false | Some x => negb (Qeq_bool x 0) end.

(** A string-or-None is true when it is a non-empty string. *)
Definition truthy_str (s : option string) : bool :=
  match s with None => false | Some x => negb (String.eqb x EmptyString) end.

(** An int-or-None is true when it is a non-zero int. *)
Definition truthy_int (n : option Z) : bool :=
  match n with None => false | Some x => negb (x =? 0) end.

(** [x <= 0] where [x] may be None: Python 2 orders None below every number. *)
Definition le_zero (n : option Z) : bool :=
  match n with None => true | Some x => x <=? 0 end.

(** [max(a, b)] returns [a] unless [b > a]; [min(a, b)] returns [a] unless
    [b < a]. *)
Definition pymax (a b : Q) : Q := if Qltb a b then b else a.
Definition pymin (a b : Q) : Q := if Qltb b a then b else a.

(** ** Python floats

    [float] is the binary64 type of the kernel: its operations are the IEEE
    operations with rounding to nearest, ties to even, as CPython's float
    has them. *)

Definition float : Type := PrimFloat.float.

Definition bind_res {A B} (r : res A) (f : A -> res B) : res B :=
  match r with
  | Ret a => f a
  | Stop e => Stop e
  end.

(** The double nearest to an integer. *)
Definition float_of_Z (z : Z) : float :=
  FloatOps.SF2Prim
    (SpecFloat.binary_normalize FloatOps.prec FloatOps.emax z 0 false).

(** The double nearest to a rational: the quotient is taken with at least 64
    bits and a last bit that records a non-zero remainder, so that the one
    rounding to 53 bits is the correct one.  On the rational a double
    denotes it gives that double back. *)
Definition float_of_Q (q : Q) : float :=
  match Qnum q with
  | 0 => float_of_Z 0
  | n =>
      let a := Z.abs n in
      let d := Zpos (Qden q) in
      let s := Z.max 0 (64 + Z.log2 d - Z.log2 a) in
      let num := a * 2 ^ s in
      let m := 2 * (num / d) + (if num mod d =? 0 then 0 else 1) in
      FloatOps.SF2Prim
        (SpecFloat.binary_normalize FloatOps.prec FloatOps.emax
           (if n <? 0 then - m else m) (- s - 1) false)
  end.

(** The rational a finite double denotes (0 for an infinity or NaN). *)
Definition float_to_Q (x : float) : Q :=
  match FloatOps.Prim2SF x with
  | SpecFloat.S754_finite s m e =>
      let v := if s then Zneg m else Zpos m in
      if 0 <=? e then inject_Z (v * 2 ^ e)
      else Qred (v # (Z.to_pos (2 ^ (- e))))
  | _ => 0%Q
  end.

Definition float_is_finite (x : float) : bool :=
  match FloatOps.Prim2SF x with
  | SpecFloat.S754_zero _ | SpecFloat.S754_finite _ _ _ => true
  | _ => false
  end.

(** An int operand meeting a float: the nearest double, OverflowError when
    the int is beyond the doubles. *)
Definition float_of_int (z : Z) : res float :=
  let x := float_of_Z z in
  if float_is_finite x then Ret x else Stop (Raise OverflowError).

(** [int(x)] on a float: truncation toward zero; OverflowError on an
    infinity, ValueError on NaN. *)
Definition int_of_float (x : float) : res Z :=
  match FloatOps.Prim2SF x with
  | SpecFloat.S754_zero _ => Ret 0
  | SpecFloat.S754_infinity _ => Stop (Raise OverflowError)
  | SpecFloat.S754_nan => Stop (Raise ValueError)
  | SpecFloat.S754_finite s m e =>
      let v := if 0 <=? e then Zpos m * 2 ^ e else Zpos m / 2 ^ (- e) in
      Ret (if s then - v else v)
  end.

(** A Python number: an int or a float. *)
Inductive pynum : Type :=
| PyInt (z : Z)
| PyFloat (x : float).

(** Lines 31-33, one channel: [int(start + slope*val)].  With an int
    position everything is int arithmetic; with a float position the ints
    become doubles and the product and the sum are each rounded. *)
Definition channel_py (start slope : Z) (val : pynum) : res Z :=
  match val with
  | PyInt v => Ret (start + slope * v)
  | PyFloat x =>
      bind_res (float_of_int slope) (fun k =>
      bind_res (float_of_int start) (fun s =>
      int_of_float (PrimFloat.add s (PrimFloat.mul k x))))
  end.

(** calculate_color (lines 25-40) as Python runs it. *)
Definition calculate_color_py (g : grad) (val : pynum) : res color :=
  let slope_r := red (snd g) - red (fst g) in
  let slope_g := green (snd g) - green (fst g) in
  let slope_b := blue (snd g) - blue (fst g) in
  bind_res (channel_py (red (fst g)) slope_r val) (fun r =>
  bind_res (channel_py (green (fst g)) slope_g val) (fun g' =>
  bind_res (channel_py (blue (fst g)) slope_b val) (fun b =>
  let r := Z.min (Z.max r 0) 255 in
  let g' := Z.min (Z.max g' 0) 255 in
  let b := Z.min (Z.max b 0) 255 in
  Ret (r, g', b)))).

(** The channel of the amended reading: the double of
    start + (end - start) * t, truncated toward zero (not yet clamped). *)
Definition double_channel (s e : Z) (t : float) : res Z :=
  int_of_float
    (PrimFloat.add (float_of_Z s) (PrimFloat.mul (float_of_Z (e - s)) t)).

Definition clamp255 (r : res Z) : res Z :=
  bind_res r (fun x => Ret (Z.min (Z.max x 0) 255)).

(** ** Reference images *)

Record image : Type :=
  { im_width : Z; im_height : Z; im_pixels : Z -> Z -> color }.

Definition im_size (im : image) : Z * Z := (im_width im, im_height im).

(** [pixels[x, y]]: IndexError outside the image. *)
Definition getpixel (im : image) (x y : Z) : res color :=
  if (0 <=? x) && (x <? im_width im) && (0 <=? y) && (y <? im_height im)
  then Ret (im_pixels im x y) else Stop (Raise IndexError).

(** ** What the program imports

    [sqrt] is [math.sqrt]; [delaunay_triangulation] and [tri_centroid] come
    from the geometry module; [image_open] is [Image.open], [None] standing
    for a file that cannot be read. *)

Class Externals : Type :=
  { sqrt : Q -> Q;
    delaunay_triangulation : list point -> option (list triangle);
    tri_centroid : list point -> Q * Q;
    image_open : string -> option image }.

Section Program.
Context {E : Externals}.

(** ** generate_points (lines 43-95) *)

(** Lines 52-53: [k] candidates, x drawn before y, appended in drawing order.

    [scale] is the float the script passes (1.25, line 209), carried as the
    rational it denotes, and the two products of line 53 are taken exactly.
    At 1.25 this is what the doubles give on every canvas side below 2^50:
    (1 - 1.25) / 2 is -0.125 and a product with it only moves the exponent,
    and side * 1.25 has at most 53 significant bits; [sample_offset_py] and
    [sample_range_py] below compute with the doubles, and
    [sample_doubles_agree] compares the two on a range of sides.  At other
    scales the doubles can round, and an int scale other than 1 divides with
    floor at [(1-scale)/2]: the statements about the sampling rectangle are
    made at 5 # 4 only. *)
Fixpoint sample_points (k : nat) (area : Z * Z) (scale : Q) : M rng (list point) :=
  match k with
  | O => ret []
  | S k' =>
      x <- randrange (int_of (inject_Z (fst area) * scale)) ;;
      y <- randrange (int_of (inject_Z (snd area) * scale)) ;;
      rest <- sample_points k' area scale ;;
      ret ((int_of ((1 - scale) / 2 * inject_Z (fst area)) + x,
            int_of ((1 - scale) / 2 * inject_Z (snd area)) + y) :: rest)
  end.

(** The same two quantities of line 53 with the arithmetic of the doubles:
    [int((1-scale)/2*side)] and [int(side*scale)] for a float [scale]. *)
Definition sample_offset_py (scale : float) (side : Z) : res Z :=
  bind_res (float_of_int side) (fun a =>
  int_of_float
    (PrimFloat.mul
       (PrimFloat.div (PrimFloat.sub (float_of_Z 1) scale) (float_of_Z 2)) a)).

Definition sample_range_py (scale : float) (side : Z) : res Z :=
  bind_res (float_of_int side) (fun a => int_of_float (PrimFloat.mul a scale)).

(** Line 65: the distance between two candidates. *)
Definition distance (p q : point) : Q :=
  sqrt (inject_Z ((fst p - fst q) ^ 2 + (snd p - snd q) ^ 2)).

(** Lines 62-67: the scan [for q in points] for one candidate [p], [d] being
    the running minimum.  The scan stops ([break]) at the first [q] equal
    to [p]. *)
Fixpoint nearest_scan (p : point) (qs : list point) (d : option Q) : option Q :=
  match qs with
  | [] => d
  | q :: qs' =>
      if point_eqb q p then d
      else
        let q_d := distance p q in
        nearest_scan p qs'
          (match d with
           | Some x => if negb (truthy_dist d) || Qltb q_d x then Some q_d else d
           | None => Some q_d
           end)
  end.

(** Lines 77-83: the [while] loop that walks [sorted_points] from the front
    and inserts before the first entry whose distance is not below [d]. *)
Fixpoint insert_scan (d : Q) (p : point) (sp : list (Q * point)) : list (Q * point) :=
  match sp with
  | [] => []
  | e :: sp' =>
      if Qltb (fst e) d then e :: insert_scan d p sp'
      else (d, p) :: e :: sp'
  end.

(** Lines 71-83: where the pair [(d, p)] goes. *)
Definition rank_insert (d : Q) (p : point) (sp : list (Q * point)) : list (Q * point) :=
  match sp with
  | [] => [(d, p)]
  | e :: _ =>
      if Qltb (fst (last sp e)) d then sp ++ [(d, p)]
      else insert_scan d p sp
  end.

(** Lines 59-83: the loop [for p in points], [sp] being [sorted_points]. *)
Fixpoint rank_points (points ps : list point) (sp : list (Q * point)) : list (Q * point) :=
  match ps with
  | [] => sp
  | p :: ps' =>
      let d := nearest_scan p points None in
      rank_points points ps'
        (match d with
         | Some x => if truthy_dist d then rank_insert x p sp else sp
         | None => sp
         end)
  end.

(** Lines 85-86: [del sorted_points[0]], [k] times. *)
Fixpoint drop_front (k : nat) (sp : list (Q * point)) : res (list (Q * point)) :=
  match k with
  | O => Ret sp
  | S k' =>
      match sp with
      | [] => Stop (Raise IndexError)
      | _ :: sp' => drop_front k' sp'
      end
  end.

(** Lines 91-94. *)
Definition sentinels (area : Z * Z) : list point :=
  [(-300, -10); (fst area + 10, -300);
   (fst area + 300, snd area + 10); (-100, snd area + 300)].

Definition generate_points (n_points : Z) (area : Z * Z) (scale : Q)
    (decluster : bool) : M rng (list point) :=
  let cluster_fraction := if decluster then 2 else 1 in
  let n_extra_points := cluster_fraction * n_points in
  points <- sample_points (Z.to_nat n_extra_points) area scale ;;
  points <-
    (if decluster then
       let sorted_points := rank_points points points [] in
       sorted_points <-
         lift_res (drop_front (Z.to_nat (n_extra_points - n_points)) sorted_points) ;;
       ret (map snd sorted_points)
     else ret points) ;;
  ret (points ++ sentinels area).


(** ** draw_polys (lines 103-109)

    What reaches the outside world is recorded as a list of events in the
    order it happens. *)

Inductive event : Type :=
| Print (msg : string)
| ImageOpen (path : string)
| Triangulate (pts : list point)
| ImageNew (size : Z * Z)
| DrawPolygon (poly : list point) (fill : color) (outline : option color)
| Resize (size : Z * Z)
| Save (filename : string).

Record world : Type := { rand : rng; log : list event }.

Definition emit (e : event) : M world unit :=
  fun w => ({| rand := rand w; log := log w ++ [e] |}, Ret tt).

Definition print (msg : string) : M world unit := emit (Print msg).
Definition exit {A} (code : Z) : M world A := halt (Exit code).

(** Runs a computation on the random source inside the world. *)
Definition with_random {A} (m : M rng A) : M world A :=
  fun w => let (g, r) := m (rand w) in ({| rand := g; log := log w |}, r).

(** [for i in range(0, len(polys))], [i] counting up from [i]; [colors[i]]
    raises IndexError past the end of [colors]. *)
Fixpoint draw_polys_from (i : nat) (colors : list color) (polys : list (list point))
    (outline : option color) : M world unit :=
  match polys with
  | [] => ret tt
  | poly :: polys' =>
      match nth_error colors i with
      | Some c =>
          emit (DrawPolygon poly c outline) ;;
          draw_polys_from (S i) colors polys' outline
      | None => halt (Raise IndexError)
      end
  end.

Definition draw_polys (colors : list color) (polys : list (list point))
    (draw_outlines : bool) (outline_color : color) : M world unit :=
  draw_polys_from 0 colors polys
    (if draw_outlines then Some outline_color else None).

(** ** The script (lines 111-278) *)

Definition aa_amount : Z := 4.

Definition gradient : list (string * grad) :=
  [ ("sunshine"%string, ((255, 248, 9), (255, 65, 9)));
    ("purples"%string, ((255, 9, 204), (4, 137, 232)));
    ("grass"%string, ((255, 232, 38), (88, 255, 38)));
    ("valentine"%string, ((102, 0, 85), (255, 25, 216)));
    ("sky"%string, ((0, 177, 255), (9, 74, 102)));
    ("ubuntu"%string, ((119, 41, 83), (221, 72, 20)));
    ("fedora"%string, ((41, 65, 114), (60, 110, 180)));
    ("debian"%string, ((215, 10, 83), (10, 10, 10)));
    ("opensuse"%string, ((151, 208, 5), (34, 120, 8))) ].

Fixpoint lookup (name : string) (table : list (string * grad)) : option grad :=
  match table with
  | [] => None
  | (k, v) :: table' => if String.eqb k name then Some v else lookup name table'
  end.

(** [gname in gradient]; None is not a key. *)
Definition in_gradient (gname : option string) : bool :=
  match gname with
  | Some name => match lookup name gradient with Some _ => true | None => false end
  | None => false
  end.

(** [gradient[gname]]. *)
Definition gradient_get (gname : option string) : res grad :=
  match gname with
  | Some name =>
      match lookup name gradient with
      | Some g => Ret g
      | None => Stop (Raise KeyError)
      end
  | None => Stop (Raise KeyError)
  end.

(** The parsed command line (lines 154-173), with the parser's defaults
    for what was not given: None for values, false for flags. *)
Record options : Type :=
  { opt_filename : string;
    opt_n_points : Z;
    opt_width : option Z;
    opt_height : option Z;
    opt_gradient : option string;
    opt_image : option string;
    opt_darken_amount : option Z;
    opt_antialias : bool;
    opt_lines : bool;
    opt_decluster : bool }.

(** [Image.open(path)]. *)
Definition Image_open (path : option string) : M world image :=
  match path with
  | Some p =>
      emit (ImageOpen p) ;;
      match image_open p with
      | Some im => ret im
      | None => halt (Raise IOError)
      end
  | None => halt (Raise IOError)
  end.

(** Lines 178-190: the colouring source is checked; the result is
    [background_image] when one was opened. *)
Definition check_source (o : options) : M world (option image) :=
  let gname := opt_gradient o in
  if negb (truthy_str gname) && negb (truthy_str (opt_image o)) then
    print "Must select either a gradient (-g) or input image (-i). See help for details." ;;
    exit 64
  else if negb (in_gradient gname) && negb (truthy_str (opt_image o)) then
    print "Invalid gradient name" ;;
    exit 64
  else if truthy_str (opt_image o) then
    when (truthy_str (opt_gradient o))
      (print "Image supercedes gradient; gradient selection ignored") ;;
    im <- Image_open (opt_image o) ;;
    ret (Some im)
  else ret None.

(** A global that is read before it was ever assigned: NameError. *)
Definition defined {A} (v : option A) : M world A :=
  match v with Some a => ret a | None => halt (Raise NameError) end.

(** Lines 193-205: the canvas size. *)
Definition canvas_size (o : options) (background_image : option image) : M world (Z * Z) :=
  if truthy_str (opt_image o) then
    when (truthy_int (opt_width o) || truthy_int (opt_height o))
      (print "Image dimensions supercede specified width and height") ;;
    im <- defined background_image ;;
    ret (im_size im)
  else
    if le_zero (opt_width o) || le_zero (opt_height o) then
      print "Width and height must be greater than zero." ;;
      exit 64
    else
      w <- defined (opt_width o) ;;
      h <- defined (opt_height o) ;;
      ret (w, h).

Fixpoint map_res {A B} (f : A -> res B) (l : list A) : res (list B) :=
  match l with
  | [] => Ret []
  | a :: l' =>
      match f a with
      | Ret b =>
          match map_res f l' with
          | Ret bs => Ret (b :: bs)
          | Stop e => Stop e
          end
      | Stop e => Stop e
      end
  end.

(** Lines 235-236: [int(min(max(c, 0), dim - 1))]. *)
Definition clamp_coord (c : Q) (dim : Z) : Z :=
  int_of (pymin (pymax c 0) (inject_Z (dim - 1))).

(** Lines 232-239: the colour of one screen-space triangle in image mode. *)
Definition image_color (im : image) (size : Z * Z) (t : list point) : res color :=
  let centroid := tri_centroid t in
  let int_centroid :=
    (clamp_coord (fst centroid) (fst size), clamp_coord (snd centroid) (snd size)) in
  getpixel im (fst int_centroid) (snd int_centroid).

(** [math.sqrt] on a float: ValueError on a negative value, minus infinity
    included; the parameter [sqrt] on a finite value that is not negative;
    plus infinity and NaN are returned as they are. *)
Definition py_sqrt (v : float) : res float :=
  if PrimFloat.ltb v (float_of_Z 0) then Stop (Raise ValueError)
  else if float_is_finite v then Ret (float_of_Q (sqrt (float_to_Q v)))
  else Ret v.

(** Line 247: the position of a triangle on the gradient, [s] being the
    length of the canvas diagonal.  The coordinates of the centroid are
    floats; [c[0]**2] on a float is the rounded square. *)
Definition gradient_frac (s : float) (t : triangle) : res float :=
  let c := tri_centroid t in
  let x := float_of_Q (fst c) in
  let y := float_of_Q (snd c) in
  bind_res (py_sqrt (PrimFloat.add (PrimFloat.mul x x) (PrimFloat.mul y y)))
    (fun n =>
       if PrimFloat.eqb s (float_of_Z 0) then Stop (Raise ZeroDivisionError)
       else Ret (PrimFloat.div n s)).

(** Lines 246-248: the colour of one triangle in gradient mode. *)
Definition gradient_color (gname : option string) (s : float) (t : triangle)
    : res color :=
  bind_res (gradient_frac s t) (fun frac =>
  bind_res (gradient_get gname) (fun g =>
  calculate_color_py g (PyFloat frac))).

(** Line 243: the squares and their sum are ints; [math.sqrt] takes the
    nearest double of the sum, and raises OverflowError when the sum is
    beyond the doubles. *)
Definition diagonal (size : Z * Z) : res float :=
  bind_res (float_of_int (fst size ^ 2 + snd size ^ 2)) py_sqrt.

(** Lines 225-248.  [background_image] is only assigned when an image was
    given; reading it unassigned would be a NameError. *)
Definition assign_colors (o : options) (background_image : option image)
    (size : Z * Z) (triangulation trans_triangulation : list triangle)
    : res (list color) :=
  if truthy_str (opt_image o) then
    match background_image with
    | Some pixels => map_res (image_color pixels size) trans_triangulation
    | None => Stop (Raise NameError)
    end
  else
    bind_res (diagonal size) (fun s =>
    map_res (gradient_color (opt_gradient o) s) triangulation).

(** Lines 253-255: one colour darkened by [d]. *)
Definition darkened (c : color) (d : Z) : color :=
  (Z.max (red c - d) 0, Z.max (green c - d) 0, Z.max (blue c - d) 0).

(** Lines 252-256. *)
Fixpoint darken_colors (amount : Z) (colors : list color) : M rng (list color) :=
  match colors with
  | [] => ret []
  | c :: colors' =>
      d <- randrange amount ;;
      rest <- darken_colors amount colors' ;;
      ret (darkened c d :: rest)
  end.

(** Lines 250-256. *)
Definition darken (o : options) (colors : list color) : M world (list color) :=
  if truthy_int (opt_darken_amount o) then
    amount <- defined (opt_darken_amount o) ;;
    with_random (darken_colors amount colors)
  else ret colors.

Definition scale_poly (p : list point) : list point :=
  map (fun v => (fst v * aa_amount, snd v * aa_amount)) p.

(** Lines 258-278.

    The calls into the imaging library on these lines ([Image.new],
    [ImageDraw.Draw], [draw.polygon], [image.resize], [image.save]) are
    recorded as events and taken to succeed: an exception raised inside the
    library (a path that cannot be written, an extension it does not know, a
    canvas too large for memory) is not part of the model, so a run that
    reaches line 276 is modelled as saving the file and leaving with code 0.
    The only exception [paint] can raise is the IndexError of [colors[i]]
    in draw_polys. *)
Definition paint (o : options) (size : Z * Z) (colors : list color)
    (trans_triangulation : list (list point)) : M world unit :=
  let size' :=
    if opt_antialias o then (fst size * aa_amount, snd size * aa_amount) else size in
  let trans_triangulation' :=
    if opt_antialias o then map scale_poly trans_triangulation
    else trans_triangulation in
  emit (ImageNew size') ;;
  draw_polys colors trans_triangulation' (opt_lines o) (255, 255, 255) ;;
  when (opt_antialias o)
    (emit (Resize (fst size' / aa_amount, snd size' / aa_amount))) ;;
  emit (Save (opt_filename o)) ;;
  print ("Image saved to " ++ opt_filename o) ;;
  exit 0.

(** [not triangulation]: None or an empty list. *)
Definition falsy_triangulation (t : option (list triangle)) : bool :=
  match t with
  | None => true
  | Some [] => true
  | Some (_ :: _) => false
  end.

(** Lines 208-278: everything after the configuration was accepted. *)
Definition render (o : options) (background_image : option image) (size : Z * Z)
    : M world unit :=
  let scale := 5 # 4 in
  points <- with_random
              (generate_points (opt_n_points o) size scale (opt_decluster o)) ;;
  emit (Triangulate points) ;;
  let triangulation := delaunay_triangulation points in
  if falsy_triangulation triangulation then
    print "Failed to find a triangulation." ;;
    exit 1
  else
    let tris := match triangulation with Some ts => ts | None => [] end in
    let trans_triangulation := map (fun t => cart_to_screen t size) tris in
    colors <- lift_res
                (assign_colors o background_image size tris trans_triangulation) ;;
    colors <- darken o colors ;;
    paint o size colors trans_triangulation.

(** Lines 175-205: the configuration is checked; the result is
    [background_image] and [size]. *)
Definition configure (o : options) : M world (option image * (Z * Z)) :=
  background_image <- check_source o ;;
  size <- canvas_size o background_image ;;
  ret (background_image, size).

Definition main (o : options) : M world unit :=
  c <- configure o ;;
  render o (fst c) (snd c).

(** A run from a fresh world: nothing printed yet, nothing drawn. *)
Definition run (o : options) (g : rng) : world * res unit :=
  main o {| rand := g; log := [] |}.

End Program.

(** ** The decluster ranking as the specification words it *)

Fixpoint remove_nth {A} (i : nat) (l : list A) : list A :=
  match l, i with
  | [], _ => []
  | _ :: l', O => l'
  | a :: l', S i' => a :: remove_nth i' l'
  end.

Fixpoint Qmin_list (l : list Q) : option Q :=
  match l with
  | [] => None
  | x :: l' =>
      match Qmin_list l' with
      | Some m => Some (if Qltb m x then m else x)
      | None => Some x
      end
  end.

(** The least distance from the candidate at position [i] to any other
    candidate of the whole list, only the candidate itself left out; None
    when there is no other candidate. *)
Definition spec_nearest {E : Externals} (points : list point) (i : nat) : option Q :=
  match nth_error points i with
  | Some p => Qmin_list (map (distance p) (remove_nth i points))
  | None => None
  end.

(** The fill colours of the polygons drawn, in drawing order. *)
Fixpoint fills (l : list event) : list color :=
  match l with
  | [] => []
  | DrawPolygon _ c _ :: l' => c :: fills l'
  | _ :: l' => fills l'
  end.



(** The image-mode colour: the pixel at the clamped centroid of the
    triangle. *)
Definition sampled_color {E : Externals} (im : image) (t : list point) : color :=
  let c := tri_centroid t in
  im_pixels im (clamp_coord (fst c) (im_width im))
    (clamp_coord (snd c) (im_height im)).

(** What [draw_polys] draws when there is a colour for every polygon. *)
Fixpoint draw_events (colors : list color) (polys : list (list point))
    (outline : option color) {struct polys} : list event :=
  match polys, colors with
  | poly :: polys', c :: colors' =>
      DrawPolygon poly c outline :: draw_events colors' polys' outline
  | _, _ => []
  end.

(** What lines 258-278 do to the outside world when there is a colour for
    every polygon. *)
Definition paint_events (o : options) (size : Z * Z) (colors : list color)
    (trans_triangulation : list (list point)) : list event :=
  let size' :=
    if opt_antialias o then (fst size * aa_amount, snd size * aa_amount) else size in
  let trans_triangulation' :=
    if opt_antialias o then map scale_poly trans_triangulation
    else trans_triangulation in
  [ImageNew size']
  ++ draw_events colors trans_triangulation'
       (if opt_lines o then Some (255, 255, 255) else None)
  ++ (if opt_antialias o
      then [Resize (fst size' / aa_amount, snd size' / aa_amount)] else [])
  ++ [Save (opt_filename o); Print ("Image saved to " ++ opt_filename o)].

(** What the configuration stage prints and opens in image mode. *)
Definition image_config_events (o : options) (path : string) : list event :=
  (if truthy_str (opt_gradient o)
   then [Print "Image supercedes gradient; gradient selection ignored"] else [])
  ++ [ImageOpen path]
  ++ (if truthy_int (opt_width o) || truthy_int (opt_height o)
      then [Print "Image dimensions supercede specified width and height"] else []).

(** Events of the configuration stage. *)
Definition config_event (e : event) : Prop :=
  match e with
  | Print _ | ImageOpen _ => True
  | _ => False
  end.

(** ** A concrete setting for examples

    [demo_sqrt] is the integer square root: it is the true root on perfect
    squares and only there, and it is used in the examples that look at a
    distance between candidates, which take roots of perfect squares only
    (their points lie on one line).  The examples that run the gradient
    colouring, where the roots are not of perfect squares, use the setting
    [ieee] further down, whose root is the correctly rounded double.  The
    example triangulator returns the triangle of the first three points; the
    example centroid is the mean of the vertices; the only readable image
    is one pixel of colour (10, 20, 30). *)

Definition demo_sqrt (x : Q) : Q := inject_Z (Z.sqrt (Qfloor x)).

Definition demo_triangulation (pts : list point) : option (list triangle) :=
  match pts with
  | a :: b :: c :: _ => Some [[a; b; c]]
  | _ => None
  end.

Definition demo_centroid (t : list point) : Q * Q :=
  let n := inject_Z (Z.of_nat (length t)) in
  let sum := fold_right Z.add 0 in
  (inject_Z (sum (map fst t)) / n, inject_Z (sum (map snd t)) / n)%Q.

Definition one_pixel : image :=
  {| im_width := 1; im_height := 1; im_pixels := fun _ _ => (10, 20, 30) |}.

Definition demo_image_open (path : string) : option image :=
  if String.eqb path "pixel.png" then Some one_pixel else None.

Definition demo : Externals :=
  {| sqrt := demo_sqrt;
     delaunay_triangulation := demo_triangulation;
     tri_centroid := demo_centroid;
     image_open := demo_image_open |}.

(** The same setting with a triangulator that finds nothing. *)
Definition demo_no_partition : Externals :=
  {| sqrt := demo_sqrt;
     delaunay_triangulation := fun _ => None;
     tri_centroid := demo_centroid;
     image_open := demo_image_open |}.

(** A random source that hands out the listed raw values, then zeros. *)
Definition tape (l : list Z) : rng :=
  {| source := fun i => nth i l 0; drawn := 0 |}.

(** Four candidates on a line of a 100 x 100 canvas at scale 1.25:
    (0,0), (10,0), (11,0), (31,0). *)
Definition line_tape : rng := tape [12; 12; 22; 12; 23; 12; 43; 12].
Definition line_points : list point := [(0, 0); (10, 0); (11, 0); (31, 0)].

Definition demo_options : options :=
  {| opt_filename := "triangles.png";
     opt_n_points := 2;
     opt_width := Some 100;
     opt_height := Some 100;
     opt_gradient := Some "sunshine"%string;
     opt_image := None;
     opt_darken_amount := None;
     opt_antialias := false;
     opt_lines := false;
     opt_decluster := false |}.

(** The same command line with another darken amount, another gradient name
    or another reference image. *)
Definition set_darken (o : options) (k : option Z) : options :=
  {| opt_filename := opt_filename o; opt_n_points := opt_n_points o;
     opt_width := opt_width o; opt_height := opt_height o;
     opt_gradient := opt_gradient o; opt_image := opt_image o;
     opt_darken_amount := k; opt_antialias := opt_antialias o;
     opt_lines := opt_lines o; opt_decluster := opt_decluster o |}.

Definition set_gradient (o : options) (name : option string) : options :=
  {| opt_filename := opt_filename o; opt_n_points := opt_n_points o;
     opt_width := opt_width o; opt_height := opt_height o;
     opt_gradient := name; opt_image := opt_image o;
     opt_darken_amount := opt_darken_amount o; opt_antialias := opt_antialias o;
     opt_lines := opt_lines o; opt_decluster := opt_decluster o |}.

Definition set_image (o : options) (path : option string) : options :=
  {| opt_filename := opt_filename o; opt_n_points := opt_n_points o;
     opt_width := opt_width o; opt_height := opt_height o;
     opt_gradient := opt_gradient o; opt_image := path;
     opt_darken_amount := opt_darken_amount o; opt_antialias := opt_antialias o;
     opt_lines := opt_lines o; opt_decluster := opt_decluster o |}.


Definition fresh (g : rng) : world := {| rand := g; log := [] |}.

(** Two points asked for on the 100 x 100 canvas without declustering: the
    first two candidates of [line_tape] and the sentinels. *)
Definition plain_points : list point := [(0, 0); (10, 0)] ++ sentinels (100, 100).

(** The same on the one-pixel canvas, where every candidate is (0, 0). *)
Definition pixel_points : list point := [(0, 0); (0, 0)] ++ sentinels (1, 1).

Definition after_draws (g : rng) (k : nat) : rng :=
  {| source := source g; drawn := k |}.

(** Image mode with a gradient name given as well. *)
Definition both_options : options := set_image demo_options (Some "pixel.png"%string).

(** ** Vocabulary for the decluster ranking *)

(** The entry a candidate contributes to [sorted_points] (lines 60-68): its
    distance and itself when the distance is true, nothing otherwise. *)
Definition rank_entry {E : Externals} (points : list point) (p : point)
    : list (Q * point) :=
  match nearest_scan p points None with
  | Some x => if truthy_dist (Some x) then [(x, p)] else []
  | None => []
  end.

(** Entries ordered by their distance. *)
Definition by_distance (a b : Q * point) : Prop := (fst a <= fst b)%Q.

(** How many of the candidates are equal to [h]. *)
Definition count_equal (h : point) (points : list point) : nat :=
  length (filter (fun p => point_eqb p h) points).

(** The rectangle the candidates are drawn from (line 53): on each axis the
    offset [int((1-scale)/2*side)] and after it [int(side*scale)] values. *)
Definition in_sampling_region (area : Z * Z) (scale : Q) (p : point) : Prop :=
  let ox := int_of ((1 - scale) / 2 * inject_Z (fst area)) in
  let oy := int_of ((1 - scale) / 2 * inject_Z (snd area)) in
  ox <= fst p < ox + int_of (inject_Z (fst area) * scale) /\
  oy <= snd p < oy + int_of (inject_Z (snd area) * scale).

(** ** Vocabulary for the outcome of a run *)

(** The file names saved, in order. *)
Fixpoint saves (l : list event) : list string :=
  match l with
  | [] => []
  | Save f :: l' => f :: saves l'
  | _ :: l' => saves l'
  end.

(** Events that leave no trace in an image: messages, the opening of the
    reference image, the call of the triangulator. *)
Definition quiet_event (e : event) : Prop :=
  match e with
  | Print _ | ImageOpen _ | Triangulate _ => True
  | _ => False
  end.

(** A stop by an uncaught exception. *)
Definition is_raise (e : stop) : Prop :=
  match e with Raise _ => True | Exit _ => False end.

(** The same command line with another width and height. *)
Definition set_size (o : options) (w h : option Z) : options :=
  {| opt_filename := opt_filename o; opt_n_points := opt_n_points o;
     opt_width := w; opt_height := h;
     opt_gradient := opt_gradient o; opt_image := opt_image o;
     opt_darken_amount := opt_darken_amount o; opt_antialias := opt_antialias o;
     opt_lines := opt_lines o; opt_decluster := opt_decluster o |}.

(** The same command line with anti-aliasing on. *)
Definition set_antialias (o : options) : options :=
  {| opt_filename := opt_filename o; opt_n_points := opt_n_points o;
     opt_width := opt_width o; opt_height := opt_height o;
     opt_gradient := opt_gradient o; opt_image := opt_image o;
     opt_darken_amount := opt_darken_amount o; opt_antialias := true;
     opt_lines := opt_lines o; opt_decluster := opt_decluster o |}.

(** ** Examples with floats *)

(** The doubles 0.0, 1.0, 0.7 (the double nearest to 7/10, Python's [0.7])
    and 2.0 ** 1020. *)
Definition f_zero : float := float_of_Z 0.
Definition f_one : float := float_of_Z 1.
Definition seven_tenths : float := PrimFloat.div (float_of_Z 7) (float_of_Z 10).
Definition huge : float := float_of_Z (2 ^ 1020).

Definition grey_ramp : grad := ((0, 0, 0), (10, 10, 10)).
Definition white_ramp : grad := ((0, 0, 0), (255, 255, 255)).
Definition debian : grad := ((215, 10, 83), (10, 10, 10)).

(** The channel values 0..255 and the slopes -255..255. *)
Definition channels : list Z := map Z.of_nat (seq 0 256).
Definition slopes : list Z := map (fun i => Z.of_nat i - 255) (seq 0 511).

Definition res_Z_is (r : res Z) (z : Z) : bool :=
  match r with
  | Ret x => x =? z
  | Stop _ => false
  end.

(** At the float positions 0.0 and 1.0 the channel from [s] to [e] is [s]
    and [e]. *)
Definition endpoints_exact (s e : Z) : bool :=
  res_Z_is (channel_py s (e - s) (PyFloat f_zero)) s
  && res_Z_is (channel_py s (e - s) (PyFloat f_one)) e.

(** The double 1.25 of line 209, and whether at this scale the doubles and
    the exact products give the same offset and the same range on a side. *)
Definition scale_py : float := PrimFloat.div (float_of_Z 5) (float_of_Z 4).

Definition sample_agrees (side : Z) : bool :=
  res_Z_is (sample_offset_py scale_py side)
    (int_of ((1 - (5 # 4)) / 2 * inject_Z side))
  && res_Z_is (sample_range_py scale_py side) (int_of (inject_Z side * (5 # 4))).

(** The sides 1..4096, and the sides 2^k - 1, 2^k and 2^k + 1 up to 2^49. *)
Definition small_sides : list Z := map Z.of_nat (seq 1 4096).
Definition wide_sides : list Z :=
  flat_map (fun k => [2 ^ Z.of_nat k - 1; 2 ^ Z.of_nat k; 2 ^ Z.of_nat k + 1])
    (seq 1 49).

(** [math.sqrt] as IEEE 754 has it, on the rational a double denotes. *)
Definition ieee_sqrt (x : Q) : Q := float_to_Q (PrimFloat.sqrt (float_of_Q x)).

(** The concrete setting with the square root of the doubles. *)
Definition ieee : Externals :=
  {| sqrt := ieee_sqrt;
     delaunay_triangulation := demo_triangulation;
     tri_centroid := demo_centroid;
     image_open := demo_image_open |}.


(** * Properties *)

(** ** Arithmetic of [int_of] *)

Lemma int_of_inject_Z (z : Z) : int_of (inject_Z z) = z.
Proof. unfold int_of; simpl. apply Z.quot_1_r. Qed.

Lemma int_of_sgn_floor (x : Q) :
  int_of x = Z.sgn (Qnum x) * Qfloor (Qabs x).
Proof.
  destruct x as [n d]; unfold int_of, Qfloor, Qabs; simpl.
  rewrite Z.quot_div by discriminate.
  rewrite (Z.sgn_pos (Zpos d)) by reflexivity.
  rewrite Z.mul_1_r. reflexivity.
Qed.

Lemma Qnum_sgn_compat (x y : Q) : x == y -> Z.sgn (Qnum x) = Z.sgn (Qnum y).
Proof.
  destruct x as [a b], y as [c d]; unfold Qeq; simpl; intros H.
  destruct (Z.lt_trichotomy a 0) as [Ha | [Ha | Ha]];
    destruct (Z.lt_trichotomy c 0) as [Hc | [Hc | Hc]];
    try (rewrite ?Z.sgn_neg, ?Z.sgn_pos, ?Z.sgn_null by lia; subst;
         rewrite ?Z.sgn_neg, ?Z.sgn_pos, ?Z.sgn_null by lia; reflexivity);
    exfalso; nia.
Qed.

Lemma int_of_compat (x y : Q) : x == y -> int_of x = int_of y.
Proof.
  intros H. rewrite !int_of_sgn_floor.
  rewrite (Qnum_sgn_compat H).
  f_equal. apply Qfloor_comp. rewrite H. reflexivity.
Qed.

Lemma int_of_nonneg (x : Q) : (0 <= x)%Q -> int_of x = Qfloor x.
Proof.
  destruct x as [n d]. unfold Qle, int_of, Qfloor; simpl. intros H.
  apply Z.quot_div_nonneg; lia.
Qed.

Lemma clamp_id (x : Z) : channel_ok x -> Z.min (Z.max x 0) 255 = x.
Proof. unfold channel_ok; lia. Qed.

Lemma clamp_ok (x : Z) : channel_ok (Z.min (Z.max x 0) 255).
Proof. unfold channel_ok; lia. Qed.

Lemma code_channel_spec (s e : Z) (t : Q) :
  Z.min (Z.max (int_of (inject_Z s + inject_Z (e - s) * t)) 0) 255
  = spec_channel s e t.
Proof.
  unfold spec_channel. cbv zeta.
  rewrite (@int_of_compat (inject_Z s + inject_Z (e - s) * t)
             (inject_Z s + (inject_Z e - inject_Z s) * t)); [reflexivity|].
  unfold Z.sub. rewrite inject_Z_plus, inject_Z_opp. reflexivity.
Qed.

Lemma spec_channel_0 (s e : Z) : channel_ok s -> spec_channel s e 0 = s.
Proof.
  intros H. unfold spec_channel. cbv zeta.
  rewrite (@int_of_compat _ (inject_Z s)) by ring.
  rewrite int_of_inject_Z. apply clamp_id, H.
Qed.

Lemma spec_channel_1 (s e : Z) : channel_ok e -> spec_channel s e 1 = e.
Proof.
  intros H. unfold spec_channel. cbv zeta.
  rewrite (@int_of_compat _ (inject_Z e)) by ring.
  rewrite int_of_inject_Z. apply clamp_id, H.
Qed.

Lemma calculate_color_channels (g : grad) (t : Q) :
  calculate_color g t
  = (spec_channel (red (fst g)) (red (snd g)) t,
     spec_channel (green (fst g)) (green (snd g)) t,
     spec_channel (blue (fst g)) (blue (snd g)) t).
Proof.
  unfold calculate_color. cbv zeta. rewrite !code_channel_spec. reflexivity.
Qed.

(** ** cart_to_screen *)

(** C7: flipping a list of points to screen coordinates twice, with the same
    canvas size, gives the list back. *)
Theorem cart_to_screen_involutive (points : list point) (size : Z * Z) :
  cart_to_screen (cart_to_screen points size) size = points.
Proof.
  induction points as [| [x y] ps IH]; [reflexivity|].
  unfold cart_to_screen in *. cbn [map fst snd]. rewrite IH.
  replace (snd size - (snd size - y)) with y by lia. reflexivity.
Qed.

(** ** calculate_color *)

Lemma channels_spec (x : Z) : channel_ok x -> In x channels.
Proof.
  unfold channel_ok, channels. intros Hx.
  replace x with (Z.of_nat (Z.to_nat x)) by lia.
  apply in_map, in_seq. lia.
Qed.

Lemma slopes_spec (x : Z) : -255 <= x <= 255 -> In x slopes.
Proof.
  unfold slopes. intros Hx.
  replace x with (Z.of_nat (Z.to_nat (x + 255)) - 255) by lia.
  apply (in_map (fun i => Z.of_nat i - 255)), in_seq. lia.
Qed.

Lemma endpoints_exact_all :
  forallb (fun s => forallb (fun e => endpoints_exact s e) channels) channels
  = true.
Proof. vm_compute. reflexivity. Qed.

Lemma slopes_finite :
  forallb (fun k => float_is_finite (float_of_Z k)) slopes = true.
Proof. vm_compute. reflexivity. Qed.

Lemma res_Z_is_true (r : res Z) (z : Z) : res_Z_is r z = true -> r = Ret z.
Proof.
  destruct r as [x | e]; cbn; [| discriminate].
  intros H. apply Z.eqb_eq in H. subst. reflexivity.
Qed.

Lemma channel_py_endpoints (s e : Z) :
  channel_ok s -> channel_ok e ->
  channel_py s (e - s) (PyFloat f_zero) = Ret s /\
  channel_py s (e - s) (PyFloat f_one) = Ret e.
Proof.
  intros Hs He.
  pose proof endpoints_exact_all as Hall.
  rewrite forallb_forall in Hall.
  pose proof (Hall s (channels_spec Hs)) as Hrow.
  rewrite forallb_forall in Hrow.
  pose proof (Hrow e (channels_spec He)) as Hc.
  unfold endpoints_exact in Hc. apply andb_true_iff in Hc.
  destruct Hc as [H0 H1].
  split; apply res_Z_is_true; assumption.
Qed.

Lemma float_of_int_slope (k : Z) :
  -255 <= k <= 255 -> float_of_int k = Ret (float_of_Z k).
Proof.
  intros Hk. unfold float_of_int.
  pose proof slopes_finite as Hall. rewrite forallb_forall in Hall.
  rewrite (Hall k (slopes_spec Hk)). reflexivity.
Qed.

Lemma channel_py_double (s e : Z) (t : float) :
  channel_ok s -> channel_ok e ->
  channel_py s (e - s) (PyFloat t) = double_channel s e t.
Proof.
  unfold channel_ok. intros Hs He. unfold channel_py, double_channel.
  rewrite !float_of_int_slope by lia. reflexivity.
Qed.

Lemma clamp255_ok (r : res Z) (x : Z) : clamp255 r = Ret x -> channel_ok x.
Proof.
  destruct r as [y | e]; cbn; [| discriminate].
  intros H. inversion H. apply clamp_ok.
Qed.

(** On an int position [calculate_color_py] is the exact arithmetic. *)
Lemma calculate_color_py_int (g : grad) (v : Z) :
  calculate_color_py g (PyInt v) = Ret (calculate_color g (inject_Z v)).
Proof.
  unfold calculate_color_py, calculate_color, channel_py, bind_res. cbv zeta.
  repeat match goal with
  | |- context [int_of (inject_Z ?a + inject_Z ?b * inject_Z ?c)] =>
      rewrite (@int_of_compat (inject_Z a + inject_Z b * inject_Z c)
                 (inject_Z (a + b * c)))
        by (rewrite inject_Z_plus, inject_Z_mult; reflexivity);
      rewrite int_of_inject_Z
  end.
  reflexivity.
Qed.

(** C3 (amended): for a gradient whose endpoint channels lie in 0..255, the
    positions 0 and 1, as ints or as floats, give exactly the start colour
    and the end colour.  At every float position each channel is the double
    of start + (end - start) * t, one rounded product and one rounded sum,
    truncated toward zero and then clamped; the function raises what [int]
    raises when that double is an infinity or NaN, and whenever it returns,
    every channel lies in 0..255. *)
Theorem calculate_color_py_spec (g : grad) :
  color_ok (fst g) -> color_ok (snd g) ->
  calculate_color_py g (PyInt 0) = Ret (fst g) /\
  calculate_color_py g (PyInt 1) = Ret (snd g) /\
  calculate_color_py g (PyFloat f_zero) = Ret (fst g) /\
  calculate_color_py g (PyFloat f_one) = Ret (snd g) /\
  forall t : float,
    calculate_color_py g (PyFloat t)
    = bind_res (clamp255 (double_channel (red (fst g)) (red (snd g)) t))
        (fun r =>
         bind_res (clamp255 (double_channel (green (fst g)) (green (snd g)) t))
           (fun g' =>
            bind_res (clamp255 (double_channel (blue (fst g)) (blue (snd g)) t))
              (fun b => Ret (r, g', b)))) /\
    forall c, calculate_color_py g (PyFloat t) = Ret c -> color_ok c.
Proof.
  intros (Hr0 & Hg0 & Hb0) (Hr1 & Hg1 & Hb1).
  destruct (channel_py_endpoints Hr0 Hr1) as [Hrz Hro].
  destruct (channel_py_endpoints Hg0 Hg1) as [Hgz Hgo].
  destruct (channel_py_endpoints Hb0 Hb1) as [Hbz Hbo].
  assert (Hfloat : forall t : float,
             calculate_color_py g (PyFloat t)
             = bind_res (clamp255 (double_channel (red (fst g)) (red (snd g)) t))
                 (fun r =>
                  bind_res
                    (clamp255 (double_channel (green (fst g)) (green (snd g)) t))
                    (fun g' =>
                     bind_res
                       (clamp255
                          (double_channel (blue (fst g)) (blue (snd g)) t))
                       (fun b => Ret (r, g', b))))).
  { intros t. unfold calculate_color_py. cbv zeta.
    rewrite !channel_py_double by assumption.
    unfold clamp255.
    destruct (double_channel (red (fst g)) (red (snd g)) t) as [r | e];
      [| reflexivity].
    destruct (double_channel (green (fst g)) (green (snd g)) t) as [g' | e];
      [| reflexivity].
    destruct (double_channel (blue (fst g)) (blue (snd g)) t) as [b | e];
      reflexivity. }
  split; [| split; [| split; [| split]]].
  - rewrite calculate_color_py_int.
    rewrite calculate_color_channels, !spec_channel_0 by assumption.
    destruct g as [[[r g'] b] e]; reflexivity.
  - rewrite calculate_color_py_int.
    rewrite calculate_color_channels, !spec_channel_1 by assumption.
    destruct g as [s [[r g'] b]]; reflexivity.
  - unfold calculate_color_py. cbv zeta. rewrite Hrz, Hgz, Hbz. cbn [bind_res].
    rewrite !clamp_id by assumption.
    destruct g as [[[r g'] b] e]; reflexivity.
  - unfold calculate_color_py. cbv zeta. rewrite Hro, Hgo, Hbo. cbn [bind_res].
    rewrite !clamp_id by assumption.
    destruct g as [s [[r g'] b]]; reflexivity.
  - intros t. split; [apply Hfloat |].
    intros c Hc. rewrite Hfloat in Hc.
    destruct (clamp255 (double_channel (red (fst g)) (red (snd g)) t))
      as [r | e] eqn:Hr; [| discriminate].
    destruct (clamp255 (double_channel (green (fst g)) (green (snd g)) t))
      as [g' | e] eqn:Hg; [| discriminate].
    destruct (clamp255 (double_channel (blue (fst g)) (blue (snd g)) t))
      as [b | e] eqn:Hb; [| discriminate].
    cbn [bind_res] in Hc. inversion Hc; subst.
    unfold color_ok, red, green, blue; cbn [fst snd].
    repeat split; eapply clamp255_ok; eassumption.
Qed.

(** The reading of C3 in exact arithmetic fails on the code: at the float
    0.7 on the ramp from 0 to 10 the code returns 7 where the exact value of
    0 + 10 * t, truncated, is 6; and at 2.0 ** 1020 on the ramp from 0 to
    255 the product is an infinity and the code raises OverflowError instead
    of returning a colour. *)
Lemma calculate_color_exact_reading_fails :
  calculate_color_py grey_ramp (PyFloat seven_tenths) = Ret (7, 7, 7) /\
  calculate_color grey_ramp (float_to_Q seven_tenths) = (6, 6, 6) /\
  spec_channel 0 10 (float_to_Q seven_tenths) = 6 /\
  calculate_color_py grey_ramp (PyFloat seven_tenths)
    <> Ret (spec_channel 0 10 (float_to_Q seven_tenths),
            spec_channel 0 10 (float_to_Q seven_tenths),
            spec_channel 0 10 (float_to_Q seven_tenths)) /\
  calculate_color_py white_ramp (PyFloat huge) = Stop (Raise OverflowError).
Proof.
  repeat split; try (vm_compute; reflexivity).
  vm_compute. discriminate.
Qed.

(** ** generate_points *)

Section PointProperties.
Context {E : Externals}.

Lemma point_eqb_refl (p : point) : point_eqb p p = true.
Proof. unfold point_eqb. rewrite !Z.eqb_refl. reflexivity. Qed.

Lemma point_eqb_eq (p q : point) : point_eqb p q = true <-> p = q.
Proof.
  destruct p as [a b], q as [c d]; unfold point_eqb; simpl.
  rewrite andb_true_iff, !Z.eqb_eq. split.
  - intros [-> ->]; reflexivity.
  - intros H; inversion H; auto.
Qed.

(** The scan looks at nothing from the first occurrence of [p] on. *)
Lemma nearest_scan_prefix (p : point) (pre post : list point) (d : option Q) :
  nearest_scan p (pre ++ p :: post) d = nearest_scan p pre d.
Proof.
  revert d. induction pre as [| q pre IH]; intros d; simpl.
  - rewrite point_eqb_refl. destruct d; reflexivity.
  - destruct (point_eqb q p); [reflexivity | apply IH].
Qed.

(** The first candidate never gets a distance. *)
Lemma nearest_scan_first (p : point) (rest : list point) :
  nearest_scan p (p :: rest) None = None.
Proof. simpl. rewrite point_eqb_refl. reflexivity. Qed.

Lemma insert_scan_length (d : Q) (p : point) (sp : list (Q * point)) :
  (length (insert_scan d p sp) <= S (length sp))%nat.
Proof.
  induction sp as [| e sp IH]; simpl; [lia|].
  destruct (Qltb (fst e) d); simpl; lia.
Qed.

Lemma rank_insert_length (d : Q) (p : point) (sp : list (Q * point)) :
  (length (rank_insert d p sp) <= S (length sp))%nat.
Proof.
  unfold rank_insert. destruct sp as [| e sp']; [simpl; lia|].
  destruct (Qltb _ d).
  - rewrite length_app; simpl; lia.
  - apply insert_scan_length.
Qed.

Lemma rank_points_length (points ps : list point) (sp : list (Q * point)) :
  (length (rank_points points ps sp) <= length sp + length ps)%nat.
Proof.
  revert sp. induction ps as [| p ps IH]; intros sp; simpl; [lia|].
  destruct (nearest_scan p points None) as [x |].
  - destruct (truthy_dist (Some x)).
    + specialize (IH (rank_insert x p sp)).
      pose proof (rank_insert_length x p sp). lia.
    + specialize (IH sp). lia.
  - specialize (IH sp). lia.
Qed.

(** The ranking of a non-empty candidate list misses at least one
    candidate: its first. *)
Lemma rank_points_short (p : point) (rest : list point) :
  (length (rank_points (p :: rest) (p :: rest) []) <= length rest)%nat.
Proof.
  cbn [rank_points]. rewrite nearest_scan_first.
  apply (rank_points_length (p :: rest) rest []).
Qed.

Lemma drop_front_length (k : nat) (sp sp' : list (Q * point)) :
  drop_front k sp = Ret sp' -> (length sp' + k = length sp)%nat.
Proof.
  revert sp. induction k as [| k IH]; intros sp H; simpl in H.
  - inversion H; subst; lia.
  - destruct sp as [| e sp]; [discriminate|].
    apply IH in H. simpl. lia.
Qed.

Lemma sample_points_length (k : nat) (area : Z * Z) (scale : Q) (g g' : rng)
    (pts : list point) :
  sample_points k area scale g = (g', Ret pts) ->
  length pts = k /\ drawn g' = (drawn g + 2 * k)%nat /\ source g' = source g.
Proof.
  revert g g' pts. induction k as [| k IH]; intros g g' pts H; simpl in H.
  - unfold ret in H. inversion H; subst. repeat split; lia.
  - unfold bind, randrange in H.
    destruct (int_of (inject_Z (fst area) * scale) <=? 0); [discriminate|].
    cbn [drawn source] in H.
    destruct (int_of (inject_Z (snd area) * scale) <=? 0); [discriminate|].
    destruct (sample_points k area scale _) as [g1 [rest | e]] eqn:Hk;
      [| discriminate].
    unfold ret in H. inversion H; subst.
    apply IH in Hk. destruct Hk as (Hl & Hd & Hs). cbn [drawn source] in *.
    repeat split; simpl; try lia. assumption.
Qed.

(** With positive ranges the sampling loop always returns. *)
Lemma sample_points_total (k : nat) (area : Z * Z) (scale : Q) (g : rng) :
  0 < int_of (inject_Z (fst area) * scale) ->
  0 < int_of (inject_Z (snd area) * scale) ->
  exists g' pts, sample_points k area scale g = (g', Ret pts).
Proof.
  intros Hx Hy. revert g. induction k as [| k IH]; intros g; simpl.
  - eexists _, _. reflexivity.
  - unfold bind, randrange.
    destruct (Z.leb_spec (int_of (inject_Z (fst area) * scale)) 0); [lia|].
    destruct (Z.leb_spec (int_of (inject_Z (snd area) * scale)) 0); [lia|].
    match goal with |- context [sample_points k area scale ?g1] =>
      destruct (IH g1) as (g' & pts & Hk) end.
    rewrite Hk. eexists _, _. reflexivity.
Qed.

End PointProperties.

Section GeneratePoints.
Context {E : Externals}.

(** Every sentinel lies outside the canvas. *)
Lemma sentinels_outside (area : Z * Z) (p : point) :
  In p (sentinels area) ->
  ~ (0 <= fst p < fst area /\ 0 <= snd p < snd area).
Proof.
  unfold sentinels. simpl.
  intros [<- | [<- | [<- | [<- | []]]]]; simpl; lia.
Qed.

(** Without declustering the function returns the [n] candidates followed by
    the four sentinels, after two draws per candidate. *)
Lemma generate_points_plain (n : Z) (area : Z * Z) (scale : Q) (g : rng) :
  0 <= n ->
  0 < int_of (inject_Z (fst area) * scale) ->
  0 < int_of (inject_Z (snd area) * scale) ->
  exists g' candidates,
    generate_points n area scale false g = (g', Ret (candidates ++ sentinels area)) /\
    Z.of_nat (length candidates) = n /\
    Z.of_nat (length (candidates ++ sentinels area)) = n + 4 /\
    drawn g' = (drawn g + 2 * Z.to_nat n)%nat.
Proof.
  intros Hn Hx Hy.
  destruct (@sample_points_total (Z.to_nat (1 * n)) area scale g Hx Hy)
    as (g' & pts & Hs).
  exists g', pts. unfold generate_points, bind. rewrite Hs. unfold ret.
  apply sample_points_length in Hs. destruct Hs as (Hl & Hd & _).
  rewrite length_app. simpl length.
  replace (Z.to_nat (1 * n)) with (Z.to_nat n) in * by (f_equal; lia).
  repeat split; try lia.
Qed.

(** A canvas side of at least one pixel, scaled by at least 1, gives a
    non-empty range to draw from. *)
Lemma scaled_range_positive (side : Z) (scale : Q) :
  0 < side -> (1 <= scale)%Q -> 0 < int_of (inject_Z side * scale).
Proof.
  intros Hs Hsc.
  assert (H1 : (1 <= inject_Z side * scale)%Q).
  { setoid_replace 1%Q with (1 * 1)%Q by reflexivity.
    apply Qmult_le_compat_nonneg.
    - split; [discriminate |]. change 1%Q with (inject_Z 1).
      rewrite <- Zle_Qle. lia.
    - split; [discriminate | exact Hsc]. }
  rewrite int_of_nonneg
    by (apply Qle_trans with (y := 1%Q); [discriminate | exact H1]).
  apply Qfloor_resp_le in H1. change (Qfloor 1) with 1 in H1. lia.
Qed.

(** The same for a canvas of positive size and a scale of at least 1, as
    the script (scale 1.25) and the default (scale 1) have it. *)
Lemma generate_points_plain_canvas (n W H : Z) (scale : Q) (g : rng) :
  1 <= n -> 0 < W -> 0 < H -> (1 <= scale)%Q ->
  exists g' candidates,
    generate_points n (W, H) scale false g
      = (g', Ret (candidates ++ sentinels (W, H))) /\
    Z.of_nat (length (candidates ++ sentinels (W, H))) = n + 4 /\
    forall p, In p (sentinels (W, H)) ->
      ~ (0 <= fst p < W /\ 0 <= snd p < H).
Proof.
  intros Hn HW HH Hsc.
  destruct (@generate_points_plain n (W, H) scale g ltac:(lia)
              (scaled_range_positive HW Hsc) (scaled_range_positive HH Hsc))
    as (g' & cands & Hrun & _ & Hlen & _).
  exists g', cands. repeat split; try assumption.
  intros p Hp. exact (sentinels_outside Hp).
Qed.

(** C2: with declustering on and [n >= 1], whenever generate_points returns,
    it returns the four sentinels after at most [n - 1] candidates: never
    [n + 4] points. *)
Theorem generate_points_decluster_short (n : Z) (area : Z * Z) (scale : Q)
    (g g' : rng) (pts : list point) :
  1 <= n ->
  generate_points n area scale true g = (g', Ret pts) ->
  (exists kept, pts = kept ++ sentinels area /\ Z.of_nat (length kept) <= n - 1) /\
  Z.of_nat (length pts) <= n + 3.
Proof.
  intros Hn H. unfold generate_points, bind, lift_res, ret in H.
  cbv beta iota zeta in H.
  destruct (sample_points _ area scale g) as [g1 [points | e]] eqn:Hs;
    [| discriminate].
  destruct (drop_front _ _) as [sp | e] eqn:Hd; [| discriminate].
  inversion H; subst; clear H.
  apply sample_points_length in Hs. destruct Hs as (Hl & _ & _).
  apply drop_front_length in Hd.
  assert (Hk : Z.of_nat (length sp) <= n - 1).
  { destruct points as [| p rest]; cbn [length] in Hl; [lia|].
    pose proof (rank_points_short p rest) as Hr. lia. }
  split.
  - exists (map snd sp). rewrite length_map. split; [reflexivity | exact Hk].
  - rewrite length_app, length_map. simpl length. lia.
Qed.

End GeneratePoints.

(** C1: on the candidates (0,0), (10,0), (11,0), (31,0), which the sampling
    loop produces from the listed draws, the scan gives (10,0) the distance
    10 to the one candidate before it, although (11,0) lies at distance 1,
    and leaves (0,0) without a distance, although three other candidates
    exist. *)
Theorem decluster_scan_stops_at_self :
  sample_points 4 (100, 100) (5 # 4) line_tape
    = ({| source := source line_tape; drawn := 8 |}, Ret line_points) /\
  nearest_scan (E := demo) (10, 0) line_points None = Some (10 # 1) /\
  spec_nearest (E := demo) line_points 1 = Some (1 # 1) /\
  nearest_scan (E := demo) (0, 0) line_points None = None /\
  spec_nearest (E := demo) line_points 0 = Some (10 # 1) /\
  map snd (rank_points (E := demo) line_points line_points [])
    = [(11, 0); (10, 0); (31, 0)].
Proof. repeat (split; [vm_compute; reflexivity |]). vm_compute. reflexivity. Qed.

(** Two points asked for with declustering on: one candidate and the
    sentinels come back. *)
Lemma generate_points_decluster_short_witness :
  1 <= 2 /\
  generate_points (E := demo) 2 (100, 100) (5 # 4) true line_tape
    = ({| source := source line_tape; drawn := 8 |},
       Ret ([(31, 0)] ++ sentinels (100, 100))) /\
  Z.of_nat (length ([(31, 0)] ++ sentinels (100, 100))) <= 2 + 3.
Proof.
  assert (H : generate_points (E := demo) 2 (100, 100) (5 # 4) true line_tape
              = ({| source := source line_tape; drawn := 8 |},
                 Ret ([(31, 0)] ++ sentinels (100, 100)))) by reflexivity.
  split; [lia | split; [exact H |]].
  exact (proj2 (@generate_points_decluster_short demo 2 (100, 100) (5 # 4)
                  line_tape _ _ ltac:(lia) H)).
Defined.

(** ** Darkening *)

Lemma randrange_run (k : Z) (g : rng) :
  0 < k ->
  randrange k g
  = ({| source := source g; drawn := S (drawn g) |}, Ret (source g (drawn g) mod k)).
Proof.
  intros Hk. unfold randrange.
  destruct (Z.leb_spec k 0); [lia | reflexivity].
Qed.

Lemma darken_colors_run (amount : Z) (colors : list color) (g : rng) :
  0 < amount ->
  exists out,
    darken_colors amount colors g
    = ({| source := source g; drawn := drawn g + length colors |}, Ret out) /\
    length out = length colors /\
    forall i c, nth_error colors i = Some c ->
      nth_error out i
      = Some (darkened c (source g (drawn g + i) mod amount)).
Proof.
  intros Ha. revert g. induction colors as [| c cs IH]; intros g.
  - exists []. cbn [darken_colors length]. unfold ret.
    rewrite Nat.add_0_r. destruct g; repeat split.
    intros [| i] c H; discriminate.
  - cbn [darken_colors]. unfold bind. rewrite randrange_run by assumption.
    destruct (IH {| source := source g; drawn := S (drawn g) |})
      as (out & Hrun & Hlen & Hnth).
    rewrite Hrun. cbn [source drawn] in *. unfold ret.
    exists (darkened c (source g (drawn g) mod amount) :: out).
    repeat split.
    + cbn [length].
      replace (drawn g + S (length cs))%nat with (S (drawn g) + length cs)%nat
        by lia.
      reflexivity.
    + cbn [length]. lia.
    + intros [| i] c' H; cbn [nth_error] in *.
      * inversion H; subst. rewrite Nat.add_0_r. reflexivity.
      * rewrite (Hnth i c' H).
        replace (drawn g + S i)%nat with (S (drawn g) + i)%nat by lia.
        reflexivity.
Qed.

Lemma darkened_ok (c : color) (d : Z) :
  color_ok c -> 0 <= d -> color_ok (darkened c d).
Proof.
  unfold color_ok, channel_ok, darkened, red, green, blue; simpl. lia.
Qed.

(** C6: with a darken amount above zero, the darkening step takes one draw
    [d] in 0..amount-1 for each colour, in order, and replaces the colour by
    its three channels each lowered by that same [d] and cut off at 0; no
    channel of the result is negative. *)
Theorem darken_spec (o : options) (amount : Z)
    (colors : list color) (w : world) :
  opt_darken_amount o = Some amount ->
  0 < amount ->
  Forall color_ok colors ->
  exists out,
    darken o colors w
    = ({| rand := {| source := source (rand w);
                     drawn := drawn (rand w) + length colors |};
          log := log w |}, Ret out) /\
    length out = length colors /\
    (forall i c, nth_error colors i = Some c ->
       exists d,
         d = source (rand w) (drawn (rand w) + i) mod amount /\
         0 <= d < amount /\
         nth_error out i
         = Some (Z.max (red c - d) 0, Z.max (green c - d) 0, Z.max (blue c - d) 0)) /\
    Forall color_ok out.
Proof.
  intros Ho Ha Hok.
  destruct (@darken_colors_run amount colors (rand w) Ha)
    as (out & Hrun & Hlen & Hnth).
  exists out. unfold darken. rewrite Ho. cbn [truthy_int].
  destruct (Z.eqb_spec amount 0) as [-> |]; [lia|]. cbn [negb].
  unfold bind, defined, ret, with_random. rewrite Hrun.
  repeat split; try assumption.
  - intros i c Hc. eexists. split; [reflexivity|].
    split; [apply Z.mod_pos_bound; assumption|].
    apply (Hnth i c Hc).
  - apply Forall_forall. intros c' Hin.
    destruct (In_nth_error _ _ Hin) as (i & Hi).
    assert (Hlt : (i < length colors)%nat).
    { rewrite <- Hlen. apply nth_error_Some. rewrite Hi. discriminate. }
    destruct (nth_error colors i) as [c |] eqn:Hc;
      [| apply nth_error_None in Hc; lia].
    rewrite (Hnth i c Hc) in Hi. inversion Hi; subst.
    apply darkened_ok.
    + rewrite Forall_forall in Hok. apply Hok.
      apply (nth_error_In _ _ Hc).
    + apply Z.mod_pos_bound; assumption.
Qed.

Lemma calculate_color_py_spec_witness :
  calculate_color_py debian (PyInt 0) = Ret (fst debian) /\
  calculate_color_py debian (PyInt 1) = Ret (snd debian) /\
  calculate_color_py debian (PyFloat f_zero) = Ret (fst debian) /\
  calculate_color_py debian (PyFloat f_one) = Ret (snd debian).
Proof.
  assert (H0 : color_ok (fst debian))
    by (unfold color_ok, channel_ok, red, green, blue, debian; simpl; lia).
  assert (H1 : color_ok (snd debian))
    by (unfold color_ok, channel_ok, red, green, blue, debian; simpl; lia).
  destruct (calculate_color_py_spec debian H0 H1) as (A & B & C & D & _).
  repeat split; assumption.
Defined.

Lemma darken_spec_witness :
  exists out,
    darken (set_darken demo_options (Some 5)) [(10, 20, 30); (2, 3, 200)]
      (fresh (tape [7; 3]))
    = ({| rand := {| source := source (tape [7; 3]); drawn := 2 |}; log := [] |},
       Ret out) /\
    out = [(8, 18, 28); (0, 0, 197)].
Proof.
  destruct (@darken_spec (set_darken demo_options (Some 5)) 5
              [(10, 20, 30); (2, 3, 200)] (fresh (tape [7; 3])))
    as (out & Hrun & Hlen & Hnth & Hok).
  - reflexivity.
  - lia.
  - repeat apply Forall_cons; try apply Forall_nil;
      unfold color_ok, channel_ok, red, green, blue; simpl; lia.
  - exists out. split; [exact Hrun |].
    destruct (Hnth 0%nat (10, 20, 30) eq_refl) as (d0 & -> & _ & H0).
    destruct (Hnth 1%nat (2, 3, 200) eq_refl) as (d1 & -> & _ & H1).
    destruct out as [| a [| b [| c out]]]; try discriminate.
    cbn in H0, H1. inversion H0; inversion H1; subst. reflexivity.
Defined.

(** ** The stages of the script *)

Lemma map_res_length {A B} (f : A -> res B) (l : list A) (bs : list B) :
  map_res f l = Ret bs -> length bs = length l.
Proof.
  revert bs. induction l as [| a l IH]; intros bs H; simpl in H.
  - inversion H; reflexivity.
  - destruct (f a) as [b | e]; [| discriminate].
    destruct (map_res f l) as [bs' | e]; [| discriminate].
    inversion H; subst. simpl. f_equal. apply IH. reflexivity.
Qed.

Lemma map_res_total {A B} (f : A -> res B) (h : A -> B) (l : list A) :
  (forall a, In a l -> f a = Ret (h a)) -> map_res f l = Ret (map h l).
Proof.
  induction l as [| a l IH]; intros H; simpl; [reflexivity|].
  rewrite (H a) by (left; reflexivity).
  rewrite IH by (intros a' Ha; apply H; right; exact Ha).
  reflexivity.
Qed.

Lemma darken_colors_length (amount : Z) (colors : list color) (g g' : rng)
    (out : list color) :
  darken_colors amount colors g = (g', Ret out) -> length out = length colors.
Proof.
  revert g g' out. induction colors as [| c cs IH]; intros g g' out H.
  - cbn in H. inversion H; reflexivity.
  - cbn [darken_colors] in H. unfold bind in H.
    destruct (randrange amount g) as [g1 [d | e]]; [| discriminate].
    destruct (darken_colors amount cs g1) as [g2 [rest | e]] eqn:Hr;
      [| discriminate].
    unfold ret in H. inversion H; subst. simpl. f_equal. exact (IH _ _ _ Hr).
Qed.

Lemma darken_log (o : options) (colors out : list color) (w w' : world) :
  darken o colors w = (w', Ret out) ->
  log w' = log w /\ length out = length colors.
Proof.
  unfold darken. destruct (truthy_int (opt_darken_amount o)).
  - unfold bind, defined. destruct (opt_darken_amount o) as [amount |].
    + unfold ret, with_random.
      destruct (darken_colors amount colors (rand w)) as [g [cs | e]] eqn:Hd;
        intros H; inversion H; subst.
      split; [reflexivity | exact (darken_colors_length _ _ _ Hd)].
    + unfold halt. discriminate.
  - unfold ret. intros H; inversion H; subst. split; reflexivity.
Qed.

Lemma darken_off (o : options) (colors : list color) (w : world) :
  truthy_int (opt_darken_amount o) = false ->
  darken o colors w = (w, Ret colors).
Proof. intros H. unfold darken. rewrite H. reflexivity. Qed.

Lemma skipn_nth_error {A} (l : list A) (i : nat) (a : A) :
  nth_error l i = Some a -> skipn i l = a :: skipn (S i) l.
Proof.
  revert i. induction l as [| b l IH]; intros [| i] H; try discriminate.
  - inversion H; reflexivity.
  - simpl in H. apply IH in H. simpl. exact H.
Qed.

Lemma draw_polys_from_run (polys : list (list point)) :
  forall (i : nat) (colors : list color) (outline : option color) (w : world),
    (i + length polys <= length colors)%nat ->
    draw_polys_from i colors polys outline w
    = ({| rand := rand w;
          log := log w ++ draw_events (skipn i colors) polys outline |}, Ret tt).
Proof.
  induction polys as [| poly polys IH]; intros i colors outline w Hlen.
  - cbn [draw_polys_from draw_events]. unfold ret.
    rewrite app_nil_r. destruct w; reflexivity.
  - cbn [draw_polys_from]. cbn [length] in Hlen.
    destruct (nth_error colors i) as [c |] eqn:Hc;
      [| apply nth_error_None in Hc; lia].
    rewrite (skipn_nth_error _ _ Hc). cbn [draw_events].
    unfold bind, emit. rewrite IH by (cbn [log rand]; lia).
    cbn [rand log]. rewrite <- app_assoc. reflexivity.
Qed.

Lemma paint_run (o : options) (size : Z * Z) (colors : list color)
    (trans : list (list point)) (w : world) :
  length colors = length trans ->
  paint o size colors trans w
  = ({| rand := rand w; log := log w ++ paint_events o size colors trans |},
     Stop (Exit 0)).
Proof.
  intros Hlen. unfold paint, paint_events, draw_polys. cbv zeta.
  unfold bind at 1. unfold emit at 1. unfold bind at 1.
  rewrite draw_polys_from_run
    by (cbn [log rand plus]; destruct (opt_antialias o);
        rewrite ?length_map; lia).
  cbn [rand log skipn].
  destruct (opt_antialias o); cbn [when];
    unfold bind, print, emit, exit, halt, ret; cbn [rand log];
    rewrite <- !app_assoc; reflexivity.
Qed.

Lemma fills_app (l1 l2 : list event) : fills (l1 ++ l2) = fills l1 ++ fills l2.
Proof.
  induction l1 as [| e l1 IH]; [reflexivity|].
  destruct e; simpl; rewrite IH; reflexivity.
Qed.

Lemma fills_draw_events (colors : list color) (polys : list (list point))
    (outline : option color) :
  length colors = length polys ->
  fills (draw_events colors polys outline) = colors.
Proof.
  revert colors. induction polys as [| poly polys IH];
    intros [| c colors] H; try discriminate; [reflexivity|].
  simpl. f_equal. apply IH. simpl in H. lia.
Qed.

Lemma fills_paint_events (o : options) (size : Z * Z) (colors : list color)
    (trans : list (list point)) :
  length colors = length trans ->
  fills (paint_events o size colors trans) = colors.
Proof.
  intros Hlen. unfold paint_events. cbv zeta.
  rewrite !fills_app, fills_draw_events
    by (destruct (opt_antialias o); rewrite ?length_map; exact Hlen).
  destruct (opt_antialias o); simpl; rewrite app_nil_r; reflexivity.
Qed.

Lemma fills_config (l : list event) : Forall config_event l -> fills l = [].
Proof.
  induction 1 as [| e l He _ IH]; [reflexivity|].
  destruct e; simpl in *; try contradiction; exact IH.
Qed.

(** ** Clamping of the sampling position *)

Lemma Qltb_true (a b : Q) : Qltb a b = true <-> (a < b)%Q.
Proof.
  unfold Qltb. rewrite negb_true_iff. split.
  - intros H. apply Qnot_le_lt. intros Hle.
    apply Qle_bool_iff in Hle. congruence.
  - intros H. destruct (Qle_bool b a) eqn:Hb; [| reflexivity].
    apply Qle_bool_iff in Hb. exfalso. exact (Qlt_not_le _ _ H Hb).
Qed.

Lemma Qltb_false (a b : Q) : Qltb a b = false <-> (b <= a)%Q.
Proof.
  unfold Qltb. rewrite negb_false_iff. apply Qle_bool_iff.
Qed.

Lemma clamp_coord_range (c : Q) (dim : Z) :
  1 <= dim -> 0 <= clamp_coord c dim <= dim - 1.
Proof.
  intros Hdim. unfold clamp_coord.
  set (m := pymax c 0).
  assert (Hm : (0 <= m)%Q).
  { unfold m, pymax. destruct (Qltb c 0) eqn:Hc.
    - apply Qle_refl.
    - apply Qltb_false in Hc. exact Hc. }
  assert (Hd : (0 <= inject_Z (dim - 1))%Q).
  { change 0%Q with (inject_Z 0). rewrite <- Zle_Qle. lia. }
  set (r := pymin m (inject_Z (dim - 1))).
  assert (Hr : (0 <= r)%Q /\ (r <= inject_Z (dim - 1))%Q).
  { unfold r, pymin. destruct (Qltb (inject_Z (dim - 1)) m) eqn:Hc.
    - split; [exact Hd | apply Qle_refl].
    - apply Qltb_false in Hc. split; assumption. }
  destruct Hr as [Hr0 Hr1].
  rewrite (int_of_nonneg Hr0). split.
  - rewrite <- (Qfloor_Z 0). apply Qfloor_resp_le. exact Hr0.
  - rewrite <- (Qfloor_Z (dim - 1)). apply Qfloor_resp_le. exact Hr1.
Qed.

(** ** The configuration stage *)

Section Run.
Context {E : Externals}.

Lemma in_gradient_truthy (gname : option string) :
  in_gradient gname = true -> truthy_str gname = true.
Proof.
  destruct gname as [name |]; [| discriminate].
  cbn [truthy_str]. destruct (String.eqb_spec name EmptyString) as [-> |];
    [vm_compute; discriminate | reflexivity].
Qed.

Ltac log_step :=
  intros H; inversion H; subst; clear H; cbn [rand log];
  split; [reflexivity |];
  first
    [ exists []; split; [symmetry; apply app_nil_r | constructor]
    | eexists; split;
      [ rewrite <- ?app_assoc; reflexivity
      | repeat (apply Forall_cons; [exact I |]); apply Forall_nil ] ].

Lemma check_source_log (o : options) (w w' : world) (r : res (option image)) :
  check_source o w = (w', r) ->
  rand w' = rand w /\
  exists evs, log w' = log w ++ evs /\ Forall config_event evs.
Proof.
  unfold check_source.
  destruct (negb (truthy_str (opt_gradient o)) && negb (truthy_str (opt_image o)));
    [unfold bind, print, emit, exit, halt; log_step |].
  destruct (negb (in_gradient (opt_gradient o)) && negb (truthy_str (opt_image o)));
    [unfold bind, print, emit, exit, halt; log_step |].
  destruct (truthy_str (opt_image o)); [| unfold ret; log_step].
  unfold Image_open.
  destruct (truthy_str (opt_gradient o)); cbn [when];
    destruct (opt_image o) as [path |];
    try destruct (image_open path);
    unfold bind, print, emit, halt, ret; log_step.
Qed.

Lemma canvas_size_log (o : options) (bg : option image) (w w' : world)
    (r : res (Z * Z)) :
  canvas_size o bg w = (w', r) ->
  rand w' = rand w /\
  exists evs, log w' = log w ++ evs /\ Forall config_event evs.
Proof.
  unfold canvas_size.
  destruct (truthy_str (opt_image o)).
  - destruct (truthy_int (opt_width o) || truthy_int (opt_height o));
      cbn [when]; destruct bg;
      unfold bind, defined, print, emit, halt, ret; log_step.
  - destruct (le_zero (opt_width o) || le_zero (opt_height o)).
    + unfold bind, print, emit, exit, halt; log_step.
    + destruct (opt_width o), (opt_height o);
        unfold bind, defined, halt, ret; log_step.
Qed.

(** The configuration stage draws no random value and only prints and
    opens the reference image. *)
Lemma configure_log (o : options) (w w' : world)
    (r : res (option image * (Z * Z))) :
  configure o w = (w', r) ->
  rand w' = rand w /\
  exists evs, log w' = log w ++ evs /\ Forall config_event evs.
Proof.
  unfold configure, bind.
  destruct (check_source o w) as [w1 [bg | e]] eqn:H1.
  - destruct (canvas_size o bg w1) as [w2 [size | e]] eqn:H2;
      unfold ret; intros H; inversion H; subst; clear H;
      apply check_source_log in H1; apply canvas_size_log in H2;
      destruct H1 as (Hr1 & evs1 & Hl1 & Hf1), H2 as (Hr2 & evs2 & Hl2 & Hf2);
      (split; [congruence |]);
      exists (evs1 ++ evs2); rewrite Hl2, Hl1, app_assoc;
      (split; [reflexivity | apply Forall_app; split; assumption]).
  - intros H; inversion H; subst; clear H.
    apply check_source_log in H1. exact H1.
Qed.


(** In image mode the configuration stage opens the image and takes its
    size, whatever the gradient option says. *)
Lemma configure_image (o : options) (path : string) (im : image) (w : world) :
  opt_image o = Some path -> path <> EmptyString ->
  image_open path = Some im ->
  configure o w
  = ({| rand := rand w; log := log w ++ image_config_events o path |},
     Ret (Some im, im_size im)).
Proof.
  intros Hi Hp Ho.
  assert (Ht : truthy_str (opt_image o) = true).
  { rewrite Hi. cbn [truthy_str].
    destruct (String.eqb_spec path EmptyString); [contradiction | reflexivity]. }
  unfold configure, check_source, canvas_size, image_config_events, bind.
  rewrite Ht, !andb_false_r. rewrite Hi. unfold Image_open. rewrite Ho.
  destruct (truthy_str (opt_gradient o));
    destruct (truthy_int (opt_width o) || truthy_int (opt_height o));
    cbn [when]; unfold bind, print, emit, defined, ret; cbn [rand log];
    rewrite <- ?app_assoc; reflexivity.
Qed.

(** C8: with no reference image and either no gradient name or a name that
    is not in the registry, the run prints one message and exits with code
    64; no random value was drawn, and nothing was triangulated, drawn or
    saved. *)
Theorem missing_source_fails_first (o : options) (g : rng) :
  truthy_str (opt_image o) = false ->
  truthy_str (opt_gradient o) = false \/ in_gradient (opt_gradient o) = false ->
  run o g
  = ({| rand := g;
        log := [Print (if truthy_str (opt_gradient o)
                       then "Invalid gradient name"
                       else "Must select either a gradient (-g) or input image (-i). See help for details.")] |},
     Stop (Exit 64)).
Proof.
  intros Hi Hg. unfold run, main, configure, check_source, bind.
  rewrite Hi. destruct (truthy_str (opt_gradient o)) eqn:Ht.
  - destruct Hg as [Hg | Hg]; [discriminate |]. rewrite Hg. reflexivity.
  - reflexivity.
Qed.

(** ** The rendering stage *)

Lemma render_failed (o : options) (bg : option image) (size : Z * Z)
    (w : world) (g1 : rng) (pts : list point) :
  generate_points (opt_n_points o) size (5 # 4) (opt_decluster o) (rand w)
    = (g1, Ret pts) ->
  falsy_triangulation (delaunay_triangulation pts) = true ->
  render o bg size w
  = ({| rand := g1;
        log := log w ++ [Triangulate pts; Print "Failed to find a triangulation."] |},
     Stop (Exit 1)).
Proof.
  intros Hg Hf. unfold render. cbv zeta.
  unfold bind at 1. unfold with_random. rewrite Hg.
  unfold bind at 1. unfold emit at 1. rewrite Hf.
  unfold bind, print, emit, exit, halt. cbn [rand log].
  rewrite <- app_assoc. reflexivity.
Qed.

Lemma render_completes (o : options) (bg : option image) (size : Z * Z)
    (w w3 : world) (g1 : rng) (pts : list point) (tris : list triangle)
    (colors0 colors : list color) :
  generate_points (opt_n_points o) size (5 # 4) (opt_decluster o) (rand w)
    = (g1, Ret pts) ->
  delaunay_triangulation pts = Some tris -> tris <> [] ->
  assign_colors o bg size tris (map (fun t => cart_to_screen t size) tris)
    = Ret colors0 ->
  darken o colors0 {| rand := g1; log := log w ++ [Triangulate pts] |}
    = (w3, Ret colors) ->
  render o bg size w
  = ({| rand := rand w3;
        log := log w ++ [Triangulate pts]
               ++ paint_events o size colors
                    (map (fun t => cart_to_screen t size) tris) |},
     Stop (Exit 0)) /\
  length colors = length tris.
Proof.
  intros Hg Hd Hne Ha Hk.
  assert (Hlen : length colors = length tris).
  { destruct (darken_log _ _ _ Hk) as [_ Hl]. rewrite Hl.
    unfold assign_colors in Ha.
    destruct (truthy_str (opt_image o)).
    - destruct bg; [| discriminate].
      rewrite (map_res_length _ _ Ha). apply length_map.
    - destruct (diagonal size); [| discriminate].
      exact (map_res_length _ _ Ha). }
  split; [| exact Hlen].
  unfold render. cbv zeta.
  unfold bind at 1. unfold with_random. rewrite Hg.
  unfold bind at 1. unfold emit at 1. rewrite Hd.
  destruct tris as [| t tris']; [contradiction |].
  cbn [falsy_triangulation rand log].
  unfold bind at 1. unfold lift_res. rewrite Ha.
  unfold bind at 1. rewrite Hk.
  rewrite paint_run by (rewrite length_map; exact Hlen).
  destruct (darken_log _ _ _ Hk) as [Hl _]. rewrite Hl. cbn [log].
  rewrite <- app_assoc. reflexivity.
Qed.

(** A run is the configuration stage followed by the rendering stage. *)
Lemma run_configured (o : options) (g : rng) (w1 : world)
    (bg : option image) (size : Z * Z) :
  configure o (fresh g) = (w1, Ret (bg, size)) ->
  run o g = render o bg size w1.
Proof.
  intros Hc. unfold run, main, bind. fold (fresh g). rewrite Hc. reflexivity.
Qed.

(** C9: when the configuration was accepted, the points [pts] were
    generated and the triangulator returns nothing for them, the run calls
    the triangulator once, prints the failure message and exits with code 1;
    before that it only printed configuration messages and opened the image,
    and after the sampling it drew no random value, painted nothing and
    saved nothing. *)
Theorem failed_triangulation_aborts (o : options) (g g1 : rng) (w1 : world)
    (bg : option image) (size : Z * Z) (pts : list point) :
  configure o (fresh g) = (w1, Ret (bg, size)) ->
  generate_points (opt_n_points o) size (5 # 4) (opt_decluster o) g
    = (g1, Ret pts) ->
  falsy_triangulation (delaunay_triangulation pts) = true ->
  run o g
  = ({| rand := g1;
        log := log w1 ++ [Triangulate pts; Print "Failed to find a triangulation."] |},
     Stop (Exit 1)) /\
  Forall config_event (log w1) /\
  fills (log w1 ++ [Triangulate pts; Print "Failed to find a triangulation."]) = [].
Proof.
  intros Hc Hg Hf.
  destruct (configure_log _ _ Hc) as (Hr & evs & Hl & Hev).
  cbn [fresh rand log app] in Hr, Hl. subst evs.
  rewrite (run_configured _ _ Hc).
  rewrite <- Hr in Hg. rewrite (render_failed _ _ _ _ Hg Hf).
  repeat split; [exact Hev |].
  rewrite fills_app, (fills_config Hev). reflexivity.
Qed.

(** ** Colouring *)






Lemma image_color_run (im : image) (t : list point) :
  1 <= im_width im -> 1 <= im_height im ->
  image_color im (im_size im) t = Ret (sampled_color im t).
Proof.
  intros Hw Hh. unfold image_color, sampled_color, getpixel, im_size.
  cbn [fst snd].
  pose proof (clamp_coord_range (fst (tri_centroid t)) Hw) as Hx.
  pose proof (clamp_coord_range (snd (tri_centroid t)) Hh) as Hy.
  destruct (Z.leb_spec 0 (clamp_coord (fst (tri_centroid t)) (im_width im)));
    [| lia].
  destruct (Z.ltb_spec (clamp_coord (fst (tri_centroid t)) (im_width im))
              (im_width im)); [| lia].
  destruct (Z.leb_spec 0 (clamp_coord (snd (tri_centroid t)) (im_height im)));
    [| lia].
  destruct (Z.ltb_spec (clamp_coord (snd (tri_centroid t)) (im_height im))
              (im_height im)); [| lia].
  reflexivity.
Qed.

Lemma assign_colors_image (o : options) (im : image) (tris trans : list triangle) :
  truthy_str (opt_image o) = true ->
  1 <= im_width im -> 1 <= im_height im ->
  assign_colors o (Some im) (im_size im) tris trans
  = Ret (map (sampled_color im) trans).
Proof.
  intros Hi Hw Hh. unfold assign_colors. rewrite Hi.
  apply map_res_total. intros t _. apply image_color_run; assumption.
Qed.

Lemma truthy_path (path : string) :
  path <> EmptyString -> truthy_str (Some path) = true.
Proof.
  intros Hp. cbn [truthy_str].
  destruct (String.eqb_spec path EmptyString); [contradiction | reflexivity].
Qed.

(** A run that goes through: the fills painted are the colours that come
    out of the darkening step. *)
Lemma run_completes (o : options) (g g1 : rng) (w1 w3 : world)
    (bg : option image) (size : Z * Z) (pts : list point)
    (tris : list triangle) (colors0 colors : list color) :
  configure o (fresh g) = (w1, Ret (bg, size)) ->
  generate_points (opt_n_points o) size (5 # 4) (opt_decluster o) g
    = (g1, Ret pts) ->
  delaunay_triangulation pts = Some tris -> tris <> [] ->
  assign_colors o bg size tris (map (fun t => cart_to_screen t size) tris)
    = Ret colors0 ->
  darken o colors0 {| rand := g1; log := log w1 ++ [Triangulate pts] |}
    = (w3, Ret colors) ->
  exists w, run o g = (w, Stop (Exit 0)) /\ fills (log w) = colors.
Proof.
  intros Hc Hg Hd Hne Ha Hk.
  destruct (configure_log _ _ Hc) as (Hr & evs & Hl & Hev).
  cbn [fresh rand log app] in Hr, Hl. subst evs.
  rewrite (run_configured _ _ Hc). rewrite <- Hr in Hg.
  destruct (render_completes _ _ _ _ Hg Hd Hne Ha Hk) as [Hrun Hlen].
  eexists. split; [exact Hrun |]. cbn [log].
  rewrite !fills_app, (fills_config Hev), fills_paint_events
    by (rewrite length_map; exact Hlen).
  reflexivity.
Qed.


Lemma clamp_coord_piecewise (c : Q) (dim : Z) :
  1 <= dim ->
  clamp_coord c dim = int_of (pymin (pymax c 0) (inject_Z (dim - 1))) /\
  0 <= clamp_coord c dim <= dim - 1 /\
  ((c < 0)%Q -> clamp_coord c dim = 0) /\
  ((0 <= c)%Q -> (c <= inject_Z (dim - 1))%Q -> clamp_coord c dim = Qfloor c) /\
  ((inject_Z (dim - 1) < c)%Q -> clamp_coord c dim = dim - 1).
Proof.
  intros Hdim. split; [reflexivity |].
  split; [apply clamp_coord_range; exact Hdim |].
  assert (Hd : (0 <= inject_Z (dim - 1))%Q).
  { change 0%Q with (inject_Z 0). rewrite <- Zle_Qle. lia. }
  unfold clamp_coord, pymax, pymin. repeat split.
  - intros Hc. apply Qltb_true in Hc. rewrite Hc.
    apply Qltb_false in Hd. rewrite Hd. reflexivity.
  - intros Hc0 Hc1. apply Qltb_false in Hc0. rewrite Hc0.
    pose proof Hc1 as Hc1'. apply Qltb_false in Hc1'. rewrite Hc1'.
    apply Qltb_false in Hc0. apply int_of_nonneg. exact Hc0.
  - intros Hc.
    assert (Hc0 : Qltb c 0 = false).
    { apply Qltb_false. apply Qle_trans with (y := inject_Z (dim - 1));
        [exact Hd | apply Qlt_le_weak; exact Hc]. }
    rewrite Hc0. apply Qltb_true in Hc. rewrite Hc. apply int_of_inject_Z.
Qed.

(** C5: in image mode the pixel sampled for a triangle is the one at its
    centroid with each coordinate clamped to 0..dimension-1: the position is
    [int(min(max(c, 0), dim - 1))], which is 0 for a coordinate below 0, the
    last index for one beyond it and the coordinate cut to an integer in
    between; and the triangles whose centroids are taken are the
    screen-space ones.  So with a reference image of one pixel of colour
    (10, 20, 30) and no darkening, every triangle is assigned (10, 20, 30)
    and the run paints every triangle with it. *)
Theorem one_pixel_image_colors (o : options) (g g1 : rng) (path : string)
    (im : image) (pts : list point) (tris : list triangle) :
  opt_image o = Some path -> path <> EmptyString ->
  image_open path = Some im ->
  im_width im = 1 -> im_height im = 1 -> im_pixels im 0 0 = (10, 20, 30) ->
  truthy_int (opt_darken_amount o) = false ->
  generate_points (opt_n_points o) (1, 1) (5 # 4) (opt_decluster o) g
    = (g1, Ret pts) ->
  delaunay_triangulation pts = Some tris -> tris <> [] ->
  (forall (im' : image) (t : list point),
     1 <= im_width im' -> 1 <= im_height im' ->
     exists x y,
       image_color im' (im_size im') t = Ret (im_pixels im' x y) /\
       x = int_of (pymin (pymax (fst (tri_centroid t)) 0)
                     (inject_Z (im_width im' - 1))) /\
       y = int_of (pymin (pymax (snd (tri_centroid t)) 0)
                     (inject_Z (im_height im' - 1))) /\
       0 <= x <= im_width im' - 1 /\ 0 <= y <= im_height im' - 1 /\
       ((fst (tri_centroid t) < 0)%Q -> x = 0) /\
       ((0 <= fst (tri_centroid t))%Q ->
        (fst (tri_centroid t) <= inject_Z (im_width im' - 1))%Q ->
        x = Qfloor (fst (tri_centroid t))) /\
       ((inject_Z (im_width im' - 1) < fst (tri_centroid t))%Q ->
        x = im_width im' - 1) /\
       ((snd (tri_centroid t) < 0)%Q -> y = 0) /\
       ((0 <= snd (tri_centroid t))%Q ->
        (snd (tri_centroid t) <= inject_Z (im_height im' - 1))%Q ->
        y = Qfloor (snd (tri_centroid t))) /\
       ((inject_Z (im_height im' - 1) < snd (tri_centroid t))%Q ->
        y = im_height im' - 1)) /\
  (forall (im' : image) (tris' : list triangle),
     1 <= im_width im' -> 1 <= im_height im' ->
     assign_colors o (Some im') (im_size im') tris'
       (map (fun t => cart_to_screen t (im_size im')) tris')
     = map_res
         (fun t => image_color im' (im_size im')
                     (cart_to_screen t (im_size im')))
         tris') /\
  assign_colors o (Some im) (1, 1) tris
    (map (fun t => cart_to_screen t (1, 1)) tris)
    = Ret (map (fun _ => (10, 20, 30)) tris) /\
  exists w,
    run o g = (w, Stop (Exit 0)) /\
    fills (log w) = map (fun _ => (10, 20, 30)) tris.
Proof.
  intros Hi Hp Ho Hw Hh Hpix Hk Hg Hd Hne.
  assert (Ht : truthy_str (opt_image o) = true)
    by (rewrite Hi; apply truthy_path, Hp).
  assert (Hsize : im_size im = (1, 1)) by (unfold im_size; congruence).
  assert (Ha : assign_colors o (Some im) (1, 1) tris
                 (map (fun t => cart_to_screen t (1, 1)) tris)
               = Ret (map (fun _ => (10, 20, 30)) tris)).
  { pose proof (@assign_colors_image o im tris
                  (map (fun t => cart_to_screen t (1, 1)) tris) Ht
                  ltac:(lia) ltac:(lia)) as Ha.
    rewrite Hsize in Ha. rewrite Ha. f_equal.
    rewrite map_map. apply map_ext. intros t. unfold sampled_color.
    rewrite Hw, Hh.
    pose proof (@clamp_coord_range
                  (fst (tri_centroid (cart_to_screen t (1, 1)))) 1 ltac:(lia)).
    pose proof (@clamp_coord_range
                  (snd (tri_centroid (cart_to_screen t (1, 1)))) 1 ltac:(lia)).
    replace (clamp_coord (fst (tri_centroid (cart_to_screen t (1, 1)))) 1)
      with 0 by lia.
    replace (clamp_coord (snd (tri_centroid (cart_to_screen t (1, 1)))) 1)
      with 0 by lia.
    exact Hpix. }
  split; [| split; [| split; [exact Ha |]]].
  - intros im' t Hw' Hh'.
    destruct (clamp_coord_piecewise (fst (tri_centroid t)) Hw')
      as (Hx & Hxr & Hx0 & Hx1 & Hx2).
    destruct (clamp_coord_piecewise (snd (tri_centroid t)) Hh')
      as (Hy & Hyr & Hy0 & Hy1 & Hy2).
    exists (clamp_coord (fst (tri_centroid t)) (im_width im')),
           (clamp_coord (snd (tri_centroid t)) (im_height im')).
    split; [apply image_color_run; assumption |].
    repeat split; try assumption; try (apply Hxr); try (apply Hyr).
  - intros im' tris' Hw' Hh'. unfold assign_colors. rewrite Ht.
    induction tris' as [| t tris' IH]; [reflexivity |].
    cbn [map map_res]. rewrite IH. reflexivity.
  - pose proof (configure_image o (fresh g) Hi Hp Ho) as Hc.
    rewrite Hsize in Hc.
    exact (@run_completes o g g1 _ _ (Some im) (1, 1) pts tris _ _
             Hc Hg Hd Hne Ha (darken_off o _ _ Hk)).
Qed.

(** C10: with both a gradient name and a reference image given, the
    configuration is accepted: the run prints that the gradient selection is
    ignored, opens the image and takes its size; every triangle is assigned
    the pixel of the image at the clamped centroid of its screen-space form,
    and these colours, once through the darkening step, are the fills the
    run paints. *)
Theorem image_supersedes_gradient (o : options) (g g1 : rng)
    (name path : string) (im : image) (pts : list point)
    (tris : list triangle) :
  opt_gradient o = Some name -> name <> EmptyString ->
  opt_image o = Some path -> path <> EmptyString ->
  image_open path = Some im -> 1 <= im_width im -> 1 <= im_height im ->
  generate_points (opt_n_points o) (im_size im) (5 # 4) (opt_decluster o) g
    = (g1, Ret pts) ->
  delaunay_triangulation pts = Some tris -> tris <> [] ->
  configure o (fresh g)
    = ({| rand := g; log := image_config_events o path |},
       Ret (Some im, im_size im)) /\
  (exists rest,
     image_config_events o path
     = Print "Image supercedes gradient; gradient selection ignored"
       :: ImageOpen path :: rest) /\
  assign_colors o (Some im) (im_size im) tris
    (map (fun t => cart_to_screen t (im_size im)) tris)
    = Ret (map (sampled_color im)
             (map (fun t => cart_to_screen t (im_size im)) tris)) /\
  forall w3 colors,
    darken o (map (sampled_color im)
                (map (fun t => cart_to_screen t (im_size im)) tris))
      {| rand := g1; log := image_config_events o path ++ [Triangulate pts] |}
      = (w3, Ret colors) ->
    exists w, run o g = (w, Stop (Exit 0)) /\ fills (log w) = colors.
Proof.
  intros Hn Hne0 Hi Hp Ho Hw Hh Hg Hd Hne.
  pose proof (configure_image o (fresh g) Hi Hp Ho) as Hc.
  cbn [fresh rand log app] in Hc.
  assert (Ht : truthy_str (opt_image o) = true)
    by (rewrite Hi; apply truthy_path, Hp).
  pose proof (@assign_colors_image o im tris
                (map (fun t => cart_to_screen t (im_size im)) tris) Ht Hw Hh)
    as Ha.
  split; [exact Hc |]. split.
  - unfold image_config_events. rewrite Hn, (truthy_path Hne0).
    eexists. reflexivity.
  - split; [exact Ha |]. intros w3 colors Hk.
    exact (@run_completes o g g1 _ w3 (Some im) (im_size im) pts tris _ colors
             Hc Hg Hd Hne Ha Hk).
Qed.

End Run.

(** ** The theorems at work on concrete runs *)

Lemma missing_source_fails_first_witness :
  run (E := demo) (set_gradient demo_options None) line_tape
  = ({| rand := line_tape;
        log := [Print "Must select either a gradient (-g) or input image (-i). See help for details."] |},
     Stop (Exit 64)).
Proof.
  apply (@missing_source_fails_first demo (set_gradient demo_options None) line_tape).
  - reflexivity.
  - left. reflexivity.
Defined.

Lemma failed_triangulation_aborts_witness :
  run (E := demo_no_partition) demo_options line_tape
  = ({| rand := after_draws line_tape 4;
        log := [Triangulate plain_points; Print "Failed to find a triangulation."] |},
     Stop (Exit 1)).
Proof.
  apply (@failed_triangulation_aborts demo_no_partition demo_options line_tape
           (after_draws line_tape 4) (fresh line_tape) None (100, 100) plain_points).
  - reflexivity.
  - reflexivity.
  - reflexivity.
Defined.


Lemma one_pixel_image_colors_witness :
  assign_colors (E := demo) (set_gradient both_options None) (Some one_pixel)
    (1, 1) [[(0, 0); (0, 0); (-300, -10)]]
    (map (fun t => cart_to_screen t (1, 1)) [[(0, 0); (0, 0); (-300, -10)]])
    = Ret [(10, 20, 30)] /\
  exists w,
    run (E := demo) (set_gradient both_options None) line_tape
      = (w, Stop (Exit 0)) /\
    fills (log w) = [(10, 20, 30)].
Proof.
  destruct (@one_pixel_image_colors demo (set_gradient both_options None)
              line_tape (after_draws line_tape 4) "pixel.png" one_pixel
              pixel_points [[(0, 0); (0, 0); (-300, -10)]])
    as (_ & _ & Ha & Hrun).
  - reflexivity.
  - discriminate.
  - reflexivity.
  - reflexivity.
  - reflexivity.
  - reflexivity.
  - reflexivity.
  - reflexivity.
  - reflexivity.
  - discriminate.
  - split; [exact Ha | exact Hrun].
Defined.

Lemma image_supersedes_gradient_witness :
  configure (E := demo) both_options (fresh line_tape)
    = ({| rand := line_tape;
          log := [Print "Image supercedes gradient; gradient selection ignored";
                  ImageOpen "pixel.png";
                  Print "Image dimensions supercede specified width and height"] |},
       Ret (Some one_pixel, (1, 1))) /\
  exists w,
    run (E := demo) both_options line_tape = (w, Stop (Exit 0)) /\
    fills (log w) = [(10, 20, 30)].
Proof.
  destruct (@image_supersedes_gradient demo both_options line_tape
              (after_draws line_tape 4) "sunshine" "pixel.png" one_pixel
              pixel_points [[(0, 0); (0, 0); (-300, -10)]])
    as (Hc & _ & _ & Hrun).
  - reflexivity.
  - discriminate.
  - reflexivity.
  - discriminate.
  - reflexivity.
  - simpl; lia.
  - simpl; lia.
  - reflexivity.
  - reflexivity.
  - discriminate.
  - split; [exact Hc |].
    apply (Hrun {| rand := after_draws line_tape 4;
                   log := image_config_events both_options "pixel.png"
                          ++ [Triangulate pixel_points] |}).
    reflexivity.
Defined.

(** ** The decluster ranking *)

Section Decluster.
Context {E : Externals}.

Lemma by_distance_refl (a : Q * point) : by_distance a a.
Proof. apply Qle_refl. Qed.

Lemma by_distance_trans (a b c : Q * point) :
  by_distance a b -> by_distance b c -> by_distance a c.
Proof. unfold by_distance. apply Qle_trans. Qed.

Lemma insert_scan_Forall (P : Q * point -> Prop) (d : Q) (p : point)
    (sp : list (Q * point)) :
  Forall P sp -> P (d, p) -> Forall P (insert_scan d p sp).
Proof.
  intros Hsp Hd. induction Hsp as [| e sp He Hsp IH]; simpl; [constructor |].
  destruct (Qltb (fst e) d); repeat constructor; assumption.
Qed.

Lemma insert_scan_sorted (d : Q) (p : point) (sp : list (Q * point)) :
  StronglySorted by_distance sp ->
  StronglySorted by_distance (insert_scan d p sp).
Proof.
  induction 1 as [| e sp Hs IH Hall]; simpl; [constructor |].
  destruct (Qltb (fst e) d) eqn:Hlt.
  - constructor; [exact IH |].
    apply insert_scan_Forall; [exact Hall |].
    apply Qltb_true in Hlt. apply Qlt_le_weak. exact Hlt.
  - apply Qltb_false in Hlt.
    constructor; [constructor; assumption |].
    constructor; [exact Hlt |].
    eapply Forall_impl; [| exact Hall].
    intros a Ha. exact (@by_distance_trans (d, p) e a Hlt Ha).
Qed.

Lemma sorted_le_last (sp : list (Q * point)) (e : Q * point) :
  StronglySorted by_distance sp ->
  forall a, In a sp -> by_distance a (last sp e).
Proof.
  induction 1 as [| b sp Hs IH Hall]; intros a Hin; [contradiction |].
  destruct sp as [| c sp'].
  - destruct Hin as [<- | []]. apply by_distance_refl.
  - change (last (b :: c :: sp') e) with (last (c :: sp') e).
    destruct Hin as [<- | Hin]; [| exact (IH a Hin)].
    apply (@by_distance_trans b c).
    + inversion Hall; assumption.
    + apply IH. left; reflexivity.
Qed.

Lemma sorted_snoc (sp : list (Q * point)) (x : Q * point) :
  StronglySorted by_distance sp ->
  Forall (fun a => by_distance a x) sp ->
  StronglySorted by_distance (sp ++ [x]).
Proof.
  induction 1 as [| b sp Hs IH Hall]; intros Hx; simpl.
  - repeat constructor.
  - inversion Hx; subst. constructor; [apply IH; assumption |].
    apply Forall_app. split; [exact Hall | repeat constructor; assumption].
Qed.

Lemma rank_insert_sorted (d : Q) (p : point) (sp : list (Q * point)) :
  StronglySorted by_distance sp ->
  StronglySorted by_distance (rank_insert d p sp).
Proof.
  intros Hs. unfold rank_insert. destruct sp as [| e sp']; [repeat constructor |].
  destruct (Qltb (fst (last (e :: sp') e)) d) eqn:Hlt.
  - apply sorted_snoc; [exact Hs |].
    apply Forall_forall. intros a Ha.
    apply Qltb_true in Hlt. apply Qlt_le_weak in Hlt.
    exact (@by_distance_trans a (last (e :: sp') e) (d, p)
             (sorted_le_last e Hs a Ha) Hlt).
  - apply insert_scan_sorted. exact Hs.
Qed.

Lemma rank_points_sorted (points ps : list point) (sp : list (Q * point)) :
  StronglySorted by_distance sp ->
  StronglySorted by_distance (rank_points points ps sp).
Proof.
  revert sp. induction ps as [| p ps IH]; intros sp Hs; simpl; [exact Hs |].
  destruct (nearest_scan p points None) as [x |]; [| exact (IH sp Hs)].
  destruct (truthy_dist (Some x)); [| exact (IH sp Hs)].
  apply IH, rank_insert_sorted, Hs.
Qed.

Lemma insert_scan_perm (d : Q) (p : point) (sp : list (Q * point)) :
  (exists e, In e sp /\ Qltb (fst e) d = false) ->
  Permutation (insert_scan d p sp) ((d, p) :: sp).
Proof.
  induction sp as [| e sp IH]; intros (e0 & Hin & Hlt); [contradiction |].
  simpl. destruct (Qltb (fst e) d) eqn:He; [| reflexivity].
  destruct Hin as [-> | Hin]; [congruence |].
  rewrite perm_swap. constructor. apply IH. exists e0. split; assumption.
Qed.

(** Inserting a pair loses nothing: the result holds the pair and the old
    entries. *)
Lemma rank_insert_perm (d : Q) (p : point) (sp : list (Q * point)) :
  Permutation (rank_insert d p sp) ((d, p) :: sp).
Proof.
  unfold rank_insert. destruct sp as [| e sp']; [reflexivity |].
  destruct (Qltb (fst (last (e :: sp') e)) d) eqn:Hlt.
  - rewrite Permutation_app_comm. reflexivity.
  - apply insert_scan_perm. exists (last (e :: sp') e). split; [| exact Hlt].
    destruct (exists_last (l := e :: sp') ltac:(discriminate)) as (l' & a & Heq).
    rewrite Heq, last_last. apply in_or_app. right. left. reflexivity.
Qed.

Lemma rank_points_perm (points ps : list point) (sp : list (Q * point)) :
  Permutation (rank_points points ps sp)
    (sp ++ flat_map (rank_entry points) ps).
Proof.
  revert sp. induction ps as [| p ps IH]; intros sp; simpl.
  - rewrite app_nil_r. reflexivity.
  - unfold rank_entry at 1.
    destruct (nearest_scan p points None) as [x |]; [| exact (IH sp)].
    destruct (truthy_dist (Some x)); [| exact (IH sp)].
    rewrite IH, rank_insert_perm. simpl.
    rewrite Permutation_middle. reflexivity.
Qed.

Lemma sorted_app_cross (l1 l2 : list (Q * point)) :
  StronglySorted by_distance (l1 ++ l2) ->
  forall a b, In a l1 -> In b l2 -> by_distance a b.
Proof.
  induction l1 as [| c l1 IH]; intros Hs a b Ha Hb; [contradiction |].
  simpl in Hs. inversion Hs as [| ? ? Hs' Hall]; subst.
  destruct Ha as [<- | Ha].
  - rewrite Forall_forall in Hall. apply Hall. apply in_or_app. right. exact Hb.
  - exact (IH Hs' a b Ha Hb).
Qed.

Lemma skipn_In {A} (k : nat) (l : list A) (a : A) : In a (skipn k l) -> In a l.
Proof.
  revert l. induction k as [| k IH]; intros l H; [exact H |].
  destruct l as [| b l]; [contradiction |]. right. apply IH. exact H.
Qed.

Lemma drop_front_spec (k : nat) (sp : list (Q * point)) :
  drop_front k sp
  = if (k <=? length sp)%nat then Ret (skipn k sp) else Stop (Raise IndexError).
Proof.
  revert sp. induction k as [| k IH]; intros sp; [reflexivity |].
  destruct sp as [| e sp]; [reflexivity |]. simpl. apply IH.
Qed.

(** X1: when the ranking loop ends, [sorted_points] holds exactly one entry
    for every candidate that got a true distance, none lost and none added,
    in ascending order of distance. *)
Theorem ranking_sorts_ranked_candidates (points : list point) :
  Permutation (rank_points points points [])
    (flat_map (rank_entry points) points) /\
  StronglySorted by_distance (rank_points points points []).
Proof.
  split.
  - exact (rank_points_perm points points []).
  - apply rank_points_sorted. constructor.
Qed.

(** X2: the deletions of lines 85-86 remove a prefix of the ranking, and no
    entry that stays has a smaller distance than an entry that was deleted. *)
Theorem decluster_drops_most_clustered (points : list point) (k : nat)
    (kept : list (Q * point)) :
  drop_front k (rank_points points points []) = Ret kept ->
  exists dropped,
    rank_points points points [] = dropped ++ kept /\
    length dropped = k /\
    forall a b, In a dropped -> In b kept -> (fst a <= fst b)%Q.
Proof.
  intros H. rewrite drop_front_spec in H.
  destruct (Nat.leb_spec k (length (rank_points points points [])))
    as [Hk |]; [| discriminate].
  inversion H; subst; clear H.
  exists (firstn k (rank_points points points [])).
  split; [symmetry; apply firstn_skipn |].
  split; [apply firstn_length_le; exact Hk |].
  apply sorted_app_cross. rewrite firstn_skipn.
  apply rank_points_sorted. constructor.
Qed.

(** *** Which candidates are ranked *)

Lemma rank_entry_equal_head (h : point) (rest : list point) (p : point) :
  point_eqb p h = true -> rank_entry (h :: rest) p = [].
Proof.
  intros Hp. apply point_eqb_eq in Hp. subst p.
  unfold rank_entry. rewrite nearest_scan_first. reflexivity.
Qed.

Lemma flat_map_rank_entry_equal_head (h : point) (rest ps : list point) :
  Forall (fun p => point_eqb p h = true) ps ->
  flat_map (rank_entry (h :: rest)) ps = [].
Proof.
  induction 1 as [| p ps Hp _ IH]; [reflexivity |].
  simpl. rewrite (@rank_entry_equal_head h rest p Hp), IH. reflexivity.
Qed.

Section PositiveRoots.
(** [math.sqrt] of a positive integer is not zero. *)
Hypothesis sqrt_positive : forall z, 0 < z -> ~ (sqrt (inject_Z z) == 0)%Q.

Lemma distance_true (p q : point) :
  point_eqb q p = false -> truthy_dist (Some (distance p q)) = true.
Proof.
  intros Hq. cbn [truthy_dist]. rewrite negb_true_iff.
  destruct (Qeq_bool (distance p q) 0) eqn:Hz; [| reflexivity].
  apply Qeq_bool_iff in Hz. exfalso. revert Hz. apply sqrt_positive.
  destruct p as [a b], q as [c d]. unfold point_eqb in Hq. cbn [fst snd] in *.
  apply andb_false_iff in Hq.
  destruct Hq as [Hq | Hq]; apply Z.eqb_neq in Hq; nia.
Qed.

Lemma nearest_scan_keeps_true (p : point) (qs : list point) (d : option Q) :
  truthy_dist d = true -> truthy_dist (nearest_scan p qs d) = true.
Proof.
  revert d. induction qs as [| q qs IH]; intros d Hd; simpl; [exact Hd |].
  destruct (point_eqb q p) eqn:Hq; [exact Hd |].
  apply IH. destruct d as [x |]; [| apply distance_true, Hq].
  destruct (negb (truthy_dist (Some x)) || Qltb (distance p q) x);
    [apply distance_true, Hq | exact Hd].
Qed.

Lemma rank_entry_other (h : point) (rest : list point) (p : point) :
  point_eqb p h = false ->
  exists x, rank_entry (h :: rest) p = [(x, p)].
Proof.
  intros Hp. unfold rank_entry. cbn [nearest_scan].
  assert (Hh : point_eqb h p = false).
  { destruct (point_eqb h p) eqn:Hh; [| reflexivity].
    apply point_eqb_eq in Hh. subst. rewrite point_eqb_refl in Hp. discriminate. }
  rewrite Hh.
  pose proof (@nearest_scan_keeps_true p rest (Some (distance p h))
                (@distance_true p h Hh)) as Ht.
  destruct (nearest_scan p rest (Some (distance p h))) as [x |];
    [| discriminate].
  rewrite Ht. exists x. reflexivity.
Qed.

(** Every candidate is either equal to the first one, and unranked, or
    ranked once. *)
Lemma ranked_count (h : point) (rest ps : list point) :
  (length (flat_map (rank_entry (h :: rest)) ps) + count_equal h ps
   = length ps)%nat.
Proof.
  unfold count_equal. induction ps as [| p ps IH]; [reflexivity |].
  cbn [flat_map filter]. rewrite length_app.
  destruct (point_eqb p h) eqn:Hp.
  - rewrite (@rank_entry_equal_head h rest p Hp). cbn [length]. lia.
  - destruct (@rank_entry_other h rest p Hp) as (x & ->). cbn [length]. lia.
Qed.

Lemma ranked_not_head (h : point) (rest ps : list point) (e : Q * point) :
  In e (flat_map (rank_entry (h :: rest)) ps) ->
  snd e <> h /\ In (snd e) ps.
Proof.
  intros Hin. apply in_flat_map in Hin. destruct Hin as (p & Hp & He).
  destruct (point_eqb p h) eqn:Hph.
  - rewrite (@rank_entry_equal_head h rest p Hph) in He. contradiction.
  - destruct (@rank_entry_other h rest p Hph) as (x & Hx). rewrite Hx in He.
    destruct He as [<- | []]. cbn [snd]. split; [| exact Hp].
    intros ->. rewrite point_eqb_refl in Hph. discriminate.
Qed.

(** X3: with declustering on, [n >= 1] and the candidates [h :: rest]
    sampled, the candidates equal to the first one, [k] of them, are never
    ranked.  When [k <= n] the function returns [n - k] candidates, none of
    them equal to the first, followed by the sentinels; when [k > n] the
    deletion runs out of entries and the function raises IndexError. *)
Theorem generate_points_decluster_count (n : Z) (area : Z * Z) (scale : Q)
    (g g' : rng) (h : point) (rest : list point) :
  1 <= n ->
  sample_points (Z.to_nat (2 * n)) area scale g = (g', Ret (h :: rest)) ->
  (Z.of_nat (count_equal h (h :: rest)) <= n ->
   exists kept,
     generate_points n area scale true g = (g', Ret (kept ++ sentinels area)) /\
     Z.of_nat (length kept) = n - Z.of_nat (count_equal h (h :: rest)) /\
     Forall (fun p => p <> h /\ In p rest) kept) /\
  (n < Z.of_nat (count_equal h (h :: rest)) ->
   generate_points n area scale true g = (g', Stop (Raise IndexError))).
Proof.
  intros Hn Hs.
  pose proof (sample_points_length _ _ _ _ Hs) as (Hlen & _ & _).
  pose proof (rank_points_perm (h :: rest) (h :: rest) []) as Hperm.
  cbn [app] in Hperm.
  pose proof (Permutation_length Hperm) as Hpl.
  pose proof (@ranked_count h rest (h :: rest)) as Hc.
  set (sp := rank_points (h :: rest) (h :: rest) []) in *.
  assert (Hrun : generate_points n area scale true g
                 = match drop_front (Z.to_nat (2 * n - n)) sp with
                   | Ret sp' => (g', Ret (map snd sp' ++ sentinels area))
                   | Stop e => (g', Stop e)
                   end).
  { unfold generate_points, bind, lift_res, ret. cbv beta iota zeta.
    rewrite Hs. fold sp. destruct (drop_front _ sp); reflexivity. }
  rewrite Hrun, drop_front_spec. split; intros Hk.
  - destruct (Nat.leb_spec (Z.to_nat (2 * n - n)) (length sp)); [| lia].
    exists (map snd (skipn (Z.to_nat (2 * n - n)) sp)).
    split; [reflexivity |]. split.
    + rewrite length_map, length_skipn. lia.
    + apply Forall_forall. intros p Hp. apply in_map_iff in Hp.
      destruct Hp as (e & <- & He).
      assert (Hin : In e sp) by (exact (@skipn_In _ _ sp e He)).
      apply (Permutation_in _ Hperm) in Hin.
      destruct (@ranked_not_head h rest (h :: rest) e Hin) as [Hne Hin'].
      split; [exact Hne |].
      destruct Hin' as [Heq | Hin']; [congruence | exact Hin'].
  - destruct (Nat.leb_spec (Z.to_nat (2 * n - n)) (length sp)); [lia |].
    reflexivity.
Qed.

End PositiveRoots.

(** *** A sampling range of one value *)

Lemma sample_points_collapsed (k : nat) (area : Z * Z) (scale : Q) (g : rng) :
  int_of (inject_Z (fst area) * scale) = 1 ->
  int_of (inject_Z (snd area) * scale) = 1 ->
  sample_points k area scale g
  = ({| source := source g; drawn := drawn g + 2 * k |},
     Ret (repeat (int_of ((1 - scale) / 2 * inject_Z (fst area)),
                  int_of ((1 - scale) / 2 * inject_Z (snd area))) k)).
Proof.
  intros Hx Hy. revert g. induction k as [| k IH]; intros g.
  - cbn [sample_points repeat]. unfold ret.
    rewrite Nat.add_0_r. destruct g; reflexivity.
  - cbn [sample_points repeat]. unfold bind. rewrite Hx, Hy.
    rewrite !randrange_run by lia. cbn [source drawn].
    rewrite IH. cbn [source drawn]. unfold ret.
    rewrite !Z.mod_1_r, !Z.add_0_r.
    replace (S (S (drawn g)) + 2 * k)%nat with (drawn g + 2 * S k)%nat by lia.
    reflexivity.
Qed.

(** X4: when the scaled canvas leaves one value to draw from on each axis
    (a canvas of one pixel at scale 1.25, for one), all candidates coincide,
    none is ranked, and generate_points with declustering on raises
    IndexError for every [n >= 1], after its 4n draws. *)
Theorem generate_points_decluster_collapsed (n : Z) (area : Z * Z) (scale : Q)
    (g : rng) :
  1 <= n ->
  int_of (inject_Z (fst area) * scale) = 1 ->
  int_of (inject_Z (snd area) * scale) = 1 ->
  generate_points n area scale true g
  = ({| source := source g; drawn := drawn g + 2 * Z.to_nat (2 * n) |},
     Stop (Raise IndexError)).
Proof.
  intros Hn Hx Hy.
  unfold generate_points, bind, lift_res. cbv beta iota zeta.
  rewrite (@sample_points_collapsed (Z.to_nat (2 * n)) area scale g Hx Hy).
  set (c := (int_of ((1 - scale) / 2 * inject_Z (fst area)),
             int_of ((1 - scale) / 2 * inject_Z (snd area)))).
  assert (Hempty : rank_points (repeat c (Z.to_nat (2 * n)))
                     (repeat c (Z.to_nat (2 * n))) [] = []).
  { apply Permutation_nil. symmetry.
    rewrite rank_points_perm. cbn [app].
    destruct (Z.to_nat (2 * n)) as [| m] eqn:Hm; [reflexivity |].
    cbn [repeat].
    rewrite flat_map_rank_entry_equal_head; [reflexivity |].
    apply Forall_forall. intros p Hp.
    change (c :: repeat c m) with (repeat c (S m)) in Hp.
    apply repeat_spec in Hp. subst p. apply point_eqb_refl. }
  rewrite Hempty.
  destruct (Z.to_nat (2 * n - n)) as [| m] eqn:Hm; [lia | reflexivity].
Qed.

End Decluster.

(** ** Sampling *)

Lemma sample_points_region (k : nat) (area : Z * Z) (scale : Q) (g g' : rng)
    (pts : list point) :
  sample_points k area scale g = (g', Ret pts) ->
  Forall (in_sampling_region area scale) pts.
Proof.
  revert g g' pts. induction k as [| k IH]; intros g g' pts H.
  - cbn in H. inversion H. constructor.
  - cbn [sample_points] in H. unfold bind, randrange in H.
    destruct (Z.leb_spec (int_of (inject_Z (fst area) * scale)) 0);
      [discriminate |].
    cbn [source drawn] in H.
    destruct (Z.leb_spec (int_of (inject_Z (snd area) * scale)) 0);
      [discriminate |].
    destruct (sample_points k area scale _) as [g1 [rest | e]] eqn:Hk;
      [| discriminate].
    unfold ret in H. inversion H; subst; clear H.
    constructor; [| exact (IH _ _ _ Hk)].
    unfold in_sampling_region. cbn [fst snd].
    pose proof (Z.mod_pos_bound (source g (drawn g))
                  (int_of (inject_Z (fst area) * scale)) ltac:(lia)).
    pose proof (Z.mod_pos_bound (source g (S (drawn g)))
                  (int_of (inject_Z (snd area) * scale)) ltac:(lia)).
    lia.
Qed.

(** At the scale 1.25 the exact products of [sample_points] are the values
    the doubles give, on every side from 1 to 4096 and around every power of
    two up to 2^49. *)
Lemma sample_doubles_agree :
  forallb sample_agrees (small_sides ++ wide_sides) = true.
Proof. vm_compute. reflexivity. Qed.

(** X5: at the scale 1.25 of the script, on a canvas with sides from 1 to
    below 2^50 (where the doubles -0.125 * side and side * 1.25 are exact),
    generate_points without declustering returns for every [n >= 0]: it
    takes exactly 2n draws and gives n candidates, each inside the sampling
    rectangle, followed by the four sentinels. *)
Theorem generate_points_plain_spec {E : Externals} (n W H : Z) (g : rng) :
  0 <= n -> 0 < W < 2 ^ 50 -> 0 < H < 2 ^ 50 ->
  exists candidates,
    generate_points n (W, H) (5 # 4) false g
    = ({| source := source g; drawn := drawn g + 2 * Z.to_nat n |},
       Ret (candidates ++ sentinels (W, H))) /\
    Z.of_nat (length candidates) = n /\
    Forall (in_sampling_region (W, H) (5 # 4)) candidates.
Proof.
  intros Hn [HW _] [HH _].
  assert (Hsc : (1 <= 5 # 4)%Q) by (unfold Qle; simpl; lia).
  pose proof (scaled_range_positive HW Hsc) as Hx.
  pose proof (scaled_range_positive HH Hsc) as Hy.
  destruct (@sample_points_total (Z.to_nat (1 * n)) (W, H) (5 # 4) g Hx Hy)
    as (g' & pts & Hs).
  exists pts. unfold generate_points, bind. rewrite Hs. unfold ret.
  pose proof (sample_points_region _ _ _ _ Hs) as Hreg.
  apply sample_points_length in Hs. destruct Hs as (Hl & Hd & Hsrc).
  replace (Z.to_nat (1 * n)) with (Z.to_nat n) in * by (f_equal; lia).
  repeat split; [| lia | exact Hreg].
  destruct g' as [src' k']. cbn [source drawn] in *. subst. reflexivity.
Qed.

(** X6: at the scale 1.25 of the script, on a canvas with sides from 1 to
    below 2^50, with or without declustering: whenever generate_points
    returns, its result ends with the four sentinels, every point before
    them lies in the sampling rectangle, and the random source has advanced
    by two draws per candidate generated. *)
Theorem generate_points_result_shape {E : Externals} (n W H : Z)
    (decluster : bool) (g g' : rng) (pts : list point) :
  0 < W < 2 ^ 50 -> 0 < H < 2 ^ 50 ->
  generate_points n (W, H) (5 # 4) decluster g = (g', Ret pts) ->
  exists kept,
    pts = kept ++ sentinels (W, H) /\
    Forall (in_sampling_region (W, H) (5 # 4)) kept /\
    source g' = source g /\
    drawn g' = (drawn g + 2 * Z.to_nat ((if decluster then 2 else 1) * n))%nat.
Proof.
  intros _ _ Hgen. unfold generate_points, bind, lift_res, ret in Hgen.
  cbv beta iota zeta in Hgen.
  destruct (sample_points _ (W, H) (5 # 4) g) as [g1 [points | e]] eqn:Hs;
    [| discriminate].
  pose proof (sample_points_region _ _ _ _ Hs) as Hreg.
  apply sample_points_length in Hs. destruct Hs as (_ & Hd & Hsrc).
  destruct decluster.
  - destruct (drop_front _ _) as [sp | e] eqn:Hdrop; [| discriminate].
    inversion Hgen; subst; clear Hgen.
    exists (map snd sp). repeat split; try assumption.
    apply Forall_forall. intros p Hp. apply in_map_iff in Hp.
    destruct Hp as (e & <- & He).
    rewrite drop_front_spec in Hdrop.
    destruct (_ <=? _)%nat; [| discriminate].
    inversion Hdrop; subst; clear Hdrop.
    apply skipn_In in He.
    apply (Permutation_in _ (rank_points_perm points points [])) in He.
    cbn [app] in He. apply in_flat_map in He. destruct He as (q & Hq & He).
    unfold rank_entry in He.
    destruct (nearest_scan q points None) as [x |]; [| contradiction].
    destruct (truthy_dist (Some x)); [| contradiction].
    destruct He as [<- | []]. cbn [snd].
    rewrite Forall_forall in Hreg. exact (Hreg q Hq).
  - inversion Hgen; subst; clear Hgen.
    exists points. repeat split; assumption.
Qed.

(** ** Colours on the gradient *)




(** ** Sampling positions *)

(** X8: for an image side of at least one pixel, the sampling coordinate is
    0 for a centroid coordinate below 0, the last index for one beyond the
    last index, and in between the coordinate with its fraction cut off. *)
Theorem clamp_coord_cases (c : Q) (dim : Z) :
  1 <= dim ->
  ((c < 0)%Q -> clamp_coord c dim = 0) /\
  ((0 <= c)%Q -> (c <= inject_Z (dim - 1))%Q -> clamp_coord c dim = Qfloor c) /\
  ((inject_Z (dim - 1) < c)%Q -> clamp_coord c dim = dim - 1).
Proof.
  intros Hdim.
  assert (Hd : (0 <= inject_Z (dim - 1))%Q).
  { change 0%Q with (inject_Z 0). rewrite <- Zle_Qle. lia. }
  unfold clamp_coord, pymax, pymin. repeat split.
  - intros Hc. apply Qltb_true in Hc. rewrite Hc.
    apply Qltb_false in Hd. rewrite Hd. reflexivity.
  - intros Hc0 Hc1. apply Qltb_false in Hc0. rewrite Hc0.
    pose proof Hc1 as Hc1'. apply Qltb_false in Hc1'. rewrite Hc1'.
    apply Qltb_false in Hc0. apply int_of_nonneg. exact Hc0.
  - intros Hc.
    assert (Hc0 : Qltb c 0 = false).
    { apply Qltb_false. apply Qle_trans with (y := inject_Z (dim - 1));
        [exact Hd | apply Qlt_le_weak; exact Hc]. }
    rewrite Hc0. apply Qltb_true in Hc. rewrite Hc. apply int_of_inject_Z.
Qed.

(** ** Drawing *)

(** X9: flipping a triangle to screen coordinates and then scaling it for
    supersampling gives the flip of the scaled triangle on the scaled
    canvas. *)
Theorem scale_flip_commute (t : list point) (size : Z * Z) :
  scale_poly (cart_to_screen t size)
  = cart_to_screen (scale_poly t) (fst size * aa_amount, snd size * aa_amount).
Proof.
  unfold scale_poly, cart_to_screen. rewrite !map_map.
  apply map_ext. intros [x y]. cbn [fst snd]. f_equal. unfold aa_amount. lia.
Qed.

Lemma draw_polys_from_any (polys : list (list point)) :
  forall (i : nat) (colors : list color) (outline : option color) (w : world),
    draw_polys_from i colors polys outline w
    = ({| rand := rand w;
          log := log w ++ draw_events (skipn i colors) polys outline |},
       if (length polys <=? length (skipn i colors))%nat
       then Ret tt else Stop (Raise IndexError)).
Proof.
  induction polys as [| poly polys IH]; intros i colors outline w.
  - cbn [draw_polys_from draw_events length Nat.leb]. unfold ret.
    rewrite app_nil_r. destruct w; reflexivity.
  - cbn [draw_polys_from].
    destruct (nth_error colors i) as [c |] eqn:Hc.
    + rewrite (skipn_nth_error _ _ Hc). cbn [draw_events length Nat.leb].
      unfold bind, emit. rewrite IH. cbn [rand log].
      rewrite <- app_assoc. reflexivity.
    + apply nth_error_None in Hc. rewrite (skipn_all2 colors Hc).
      cbn [draw_events length Nat.leb]. unfold halt.
      rewrite app_nil_r. destruct w; reflexivity.
Qed.

Lemma draw_events_length (colors : list color) (polys : list (list point))
    (outline : option color) :
  length (draw_events colors polys outline)
  = Nat.min (length polys) (length colors).
Proof.
  revert colors. induction polys as [| poly polys IH]; intros [| c colors];
    cbn [draw_events length Nat.min]; try reflexivity.
  f_equal. apply IH.
Qed.

Lemma draw_events_fills (colors : list color) (polys : list (list point))
    (outline : option color) :
  fills (draw_events colors polys outline) = firstn (length polys) colors.
Proof.
  revert colors. induction polys as [| poly polys IH]; intros [| c colors];
    cbn [draw_events length firstn fills]; try reflexivity.
  f_equal. apply IH.
Qed.

(** X10: draw_polys draws the polygons in order, polygon i filled with
    colour i, all with the outline colour when outlines are asked for and
    with none otherwise.  Colours beyond the last polygon are ignored; if
    there are fewer colours than polygons, the polygons that have a colour
    are drawn and then IndexError is raised. *)
Theorem draw_polys_spec (colors : list color) (polys : list (list point))
    (draw_outlines : bool) (outline_color : color) (w : world) :
  let outline := if draw_outlines then Some outline_color else None in
  draw_polys colors polys draw_outlines outline_color w
  = ({| rand := rand w; log := log w ++ draw_events colors polys outline |},
     if (length polys <=? length colors)%nat
     then Ret tt else Stop (Raise IndexError)) /\
  length (draw_events colors polys outline)
  = Nat.min (length polys) (length colors) /\
  fills (draw_events colors polys outline) = firstn (length polys) colors.
Proof.
  cbv zeta. split; [| split].
  - unfold draw_polys. rewrite draw_polys_from_any. reflexivity.
  - apply draw_events_length.
  - apply draw_events_fills.
Qed.

Lemma paint_any (o : options) (size : Z * Z) (colors : list color)
    (trans : list (list point)) (w : world) :
  paint o size colors trans w
  = if (length trans <=? length colors)%nat
    then ({| rand := rand w; log := log w ++ paint_events o size colors trans |},
          Stop (Exit 0))
    else ({| rand := rand w;
             log := log w
                    ++ [ImageNew (if opt_antialias o
                                  then (fst size * aa_amount, snd size * aa_amount)
                                  else size)]
                    ++ draw_events colors
                         (if opt_antialias o then map scale_poly trans else trans)
                         (if opt_lines o then Some (255, 255, 255) else None) |},
          Stop (Raise IndexError)).
Proof.
  unfold paint, paint_events, draw_polys. cbv zeta.
  unfold bind at 1. unfold emit at 1. unfold bind at 1.
  rewrite draw_polys_from_any. cbn [rand log skipn].
  assert (Hlen : length (if opt_antialias o then map scale_poly trans else trans)
                 = length trans)
    by (destruct (opt_antialias o); rewrite ?length_map; reflexivity).
  rewrite Hlen.
  destruct (length trans <=? length colors)%nat.
  - destruct (opt_antialias o); cbn [when];
      unfold bind, print, emit, exit, halt, ret; cbn [rand log];
      rewrite <- !app_assoc; reflexivity.
  - rewrite <- app_assoc. reflexivity.
Qed.

(** X11: when the painting stage ends with exit code 0 and anti-aliasing is
    on, it has created the image at four times the canvas size, drawn every
    polygon with its coordinates multiplied by four, resized to exactly the
    canvas size and saved the file once, in this order. *)
Theorem paint_antialias (o : options) (size : Z * Z) (colors : list color)
    (trans : list (list point)) (w w' : world) :
  opt_antialias o = true ->
  paint o size colors trans w = (w', Stop (Exit 0)) ->
  (length trans <= length colors)%nat /\
  rand w' = rand w /\
  log w' = log w
           ++ [ImageNew (fst size * 4, snd size * 4)]
           ++ draw_events colors (map scale_poly trans)
                (if opt_lines o then Some (255, 255, 255) else None)
           ++ [Resize size; Save (opt_filename o);
               Print ("Image saved to " ++ opt_filename o)].
Proof.
  intros Haa H. rewrite paint_any in H.
  destruct (Nat.leb_spec (length trans) (length colors)) as [Hle |];
    [| discriminate].
  inversion H; subst; clear H. cbn [rand log].
  split; [exact Hle |]. split; [reflexivity |].
  unfold paint_events. rewrite Haa. cbv zeta. unfold aa_amount. cbn [fst snd].
  rewrite !Z.div_mul by discriminate.
  destruct size as [W H]. reflexivity.
Qed.

(** ** Rejected configurations *)

(** X12: in gradient mode with a registered gradient, a width or height
    that is missing, zero or negative ends the run with one message and
    exit code 64; no random value was drawn and nothing was triangulated,
    drawn or saved. *)
Theorem bad_dimensions_fail_first {E : Externals} (o : options) (g : rng) :
  truthy_str (opt_image o) = false ->
  in_gradient (opt_gradient o) = true ->
  le_zero (opt_width o) || le_zero (opt_height o) = true ->
  run o g
  = ({| rand := g;
        log := [Print "Width and height must be greater than zero."] |},
     Stop (Exit 64)).
Proof.
  intros Hi Hg Hd.
  unfold run, main, configure, check_source, canvas_size, bind.
  rewrite Hi, Hg, (in_gradient_truthy _ Hg), Hd. reflexivity.
Qed.

(** X13: when a reference image is named and cannot be opened, the run
    stops with IOError right after the attempt: it printed at most the
    notice that the gradient is ignored, drew no random value and
    triangulated, drew and saved nothing. *)
Theorem unreadable_image_stops {E : Externals} (o : options) (g : rng)
    (path : string) :
  opt_image o = Some path -> path <> EmptyString ->
  image_open path = None ->
  run o g
  = ({| rand := g;
        log := (if truthy_str (opt_gradient o)
                then [Print "Image supercedes gradient; gradient selection ignored"]
                else [])
               ++ [ImageOpen path] |},
     Stop (Raise IOError)).
Proof.
  intros Hi Hp Ho.
  unfold run, main, configure, check_source, bind.
  rewrite Hi, (truthy_path Hp), !andb_false_r.
  unfold Image_open. rewrite Ho.
  destruct (truthy_str (opt_gradient o)); reflexivity.
Qed.

(** ** What a run leaves behind *)

Lemma config_event_quiet (l : list event) :
  Forall config_event l -> Forall quiet_event l.
Proof.
  apply Forall_impl. intros [] H; simpl in *; auto.
Qed.

Lemma saves_app (l1 l2 : list event) : saves (l1 ++ l2) = saves l1 ++ saves l2.
Proof.
  induction l1 as [| e l1 IH]; [reflexivity |].
  destruct e; simpl; rewrite IH; reflexivity.
Qed.

Lemma saves_quiet (l : list event) : Forall quiet_event l -> saves l = [].
Proof.
  induction 1 as [| e l He _ IH]; [reflexivity |].
  destruct e; simpl in *; try contradiction; exact IH.
Qed.

Lemma saves_draw_events (colors : list color) (polys : list (list point))
    (outline : option color) :
  saves (draw_events colors polys outline) = [].
Proof.
  revert colors. induction polys as [| poly polys IH]; intros [| c colors];
    cbn [draw_events saves]; try reflexivity. apply IH.
Qed.

Lemma saves_paint_events (o : options) (size : Z * Z) (colors : list color)
    (trans : list (list point)) :
  saves (paint_events o size colors trans) = [opt_filename o].
Proof.
  unfold paint_events. cbv zeta.
  rewrite !saves_app, saves_draw_events.
  destruct (opt_antialias o); reflexivity.
Qed.

Lemma sample_points_stop (k : nat) (area : Z * Z) (scale : Q) (g g' : rng)
    (e : stop) :
  sample_points k area scale g = (g', Stop e) -> is_raise e.
Proof.
  revert g. induction k as [| k IH]; intros g H; [discriminate |].
  cbn [sample_points] in H. unfold bind, randrange in H.
  destruct (int_of (inject_Z (fst area) * scale) <=? 0);
    [inversion H; exact I |].
  cbn [source drawn] in H.
  destruct (int_of (inject_Z (snd area) * scale) <=? 0);
    [inversion H; exact I |].
  destruct (sample_points k area scale _) as [g1 [rest | e1]] eqn:Hk;
    [discriminate |].
  inversion H; subst. exact (IH _ Hk).
Qed.

Lemma generate_points_stop {E : Externals} (n : Z) (area : Z * Z) (scale : Q)
    (decluster : bool) (g g' : rng) (e : stop) :
  generate_points n area scale decluster g = (g', Stop e) -> is_raise e.
Proof.
  intros H. unfold generate_points, bind, lift_res, ret in H.
  cbv beta iota zeta in H.
  destruct (sample_points _ area scale g) as [g1 [points | e1]] eqn:Hs.
  - destruct decluster; [| discriminate].
    rewrite drop_front_spec in H.
    destruct (_ <=? _)%nat; [discriminate |].
    inversion H; subst. exact I.
  - inversion H; subst. exact (sample_points_stop _ _ _ _ Hs).
Qed.

Lemma map_res_stop {A B} (f : A -> res B) (l : list A) (e : stop) :
  map_res f l = Stop e -> exists a, In a l /\ f a = Stop e.
Proof.
  induction l as [| a l IH]; intros H; [discriminate |].
  cbn [map_res] in H. destruct (f a) as [b | e1] eqn:Hf.
  - destruct (map_res f l) as [bs | e2]; [discriminate |].
    inversion H; subst. destruct (IH eq_refl) as (a' & Hin & Ha').
    exists a'. split; [right; exact Hin | exact Ha'].
  - inversion H; subst. exists a. split; [left; reflexivity | exact Hf].
Qed.

Lemma int_of_float_stop (x : float) (e : stop) :
  int_of_float x = Stop e -> is_raise e.
Proof.
  unfold int_of_float. destruct (FloatOps.Prim2SF x);
    intros H; inversion H; exact I.
Qed.

Lemma channel_py_stop (s k : Z) (val : pynum) (e : stop) :
  channel_py s k val = Stop e -> is_raise e.
Proof.
  unfold channel_py, float_of_int. destruct val as [v | x]; [discriminate |].
  destruct (float_is_finite (float_of_Z k)); cbn [bind_res];
    [| intros H; inversion H; exact I].
  destruct (float_is_finite (float_of_Z s)); cbn [bind_res];
    [| intros H; inversion H; exact I].
  apply int_of_float_stop.
Qed.

Lemma calculate_color_py_stop (g : grad) (val : pynum) (e : stop) :
  calculate_color_py g val = Stop e -> is_raise e.
Proof.
  unfold calculate_color_py. cbv zeta.
  destruct (channel_py (red (fst g)) _ val) as [r | e1] eqn:Hr; cbn [bind_res];
    [| intros H; inversion H; subst; exact (channel_py_stop _ _ _ Hr)].
  destruct (channel_py (green (fst g)) _ val) as [g' | e1] eqn:Hg;
    cbn [bind_res];
    [| intros H; inversion H; subst; exact (channel_py_stop _ _ _ Hg)].
  destruct (channel_py (blue (fst g)) _ val) as [b | e1] eqn:Hb;
    cbn [bind_res];
    [discriminate | intros H; inversion H; subst;
                    exact (channel_py_stop _ _ _ Hb)].
Qed.

Lemma py_sqrt_stop {E : Externals} (v : float) (e : stop) :
  py_sqrt v = Stop e -> is_raise e.
Proof.
  unfold py_sqrt.
  destruct (PrimFloat.ltb _ _); [| destruct (float_is_finite v)];
    intros H; inversion H; exact I.
Qed.

Lemma diagonal_stop {E : Externals} (size : Z * Z) (e : stop) :
  diagonal size = Stop e -> is_raise e.
Proof.
  unfold diagonal, float_of_int.
  destruct (float_is_finite _); cbn [bind_res];
    [apply py_sqrt_stop | intros H; inversion H; exact I].
Qed.

Lemma gradient_color_stop {E : Externals} (gname : option string) (s : float)
    (t : triangle) (e : stop) :
  gradient_color gname s t = Stop e -> is_raise e.
Proof.
  unfold gradient_color, gradient_frac, py_sqrt, gradient_get.
  destruct (PrimFloat.ltb _ _); [| destruct (float_is_finite _)];
    cbn [bind_res]; try (intros H; inversion H; exact I);
    (destruct (PrimFloat.eqb _ _); cbn [bind_res];
     [intros H; inversion H; exact I |]);
    (destruct gname as [name |]; [| intros H; inversion H; exact I]);
    (destruct (lookup name gradient); cbn [bind_res];
     [apply calculate_color_py_stop | intros H; inversion H; exact I]).
Qed.

Lemma assign_colors_stop {E : Externals} (o : options) (bg : option image)
    (size : Z * Z) (tris trans : list triangle) (e : stop) :
  assign_colors o bg size tris trans = Stop e -> is_raise e.
Proof.
  unfold assign_colors. destruct (truthy_str (opt_image o)).
  - destruct bg as [im |]; [| intros H; inversion H; exact I].
    intros H. apply map_res_stop in H. destruct H as (t & _ & H).
    unfold image_color, getpixel in H.
    destruct (_ && _); [discriminate | inversion H; exact I].
  - destruct (diagonal size) as [s | e1] eqn:Hs; cbn [bind_res].
    + intros H. apply map_res_stop in H. destruct H as (t & _ & H).
      exact (gradient_color_stop _ _ _ H).
    + intros H. inversion H; subst. exact (diagonal_stop _ Hs).
Qed.

Lemma darken_colors_stop (amount : Z) (colors : list color) (g g' : rng)
    (e : stop) :
  darken_colors amount colors g = (g', Stop e) -> is_raise e.
Proof.
  revert g. induction colors as [| c cs IH]; intros g H; [discriminate |].
  cbn [darken_colors] in H. unfold bind, randrange in H.
  destruct (amount <=? 0); [inversion H; exact I |].
  destruct (darken_colors amount cs _) as [g1 [rest | e1]] eqn:Hk;
    [discriminate |].
  inversion H; subst. exact (IH _ Hk).
Qed.

Lemma darken_stop (o : options) (colors : list color) (w w' : world) (e : stop) :
  darken o colors w = (w', Stop e) -> is_raise e /\ log w' = log w.
Proof.
  unfold darken. destruct (truthy_int (opt_darken_amount o)); [| discriminate].
  unfold bind, defined. destruct (opt_darken_amount o) as [amount |].
  - unfold ret, with_random.
    destruct (darken_colors amount colors (rand w)) as [g [cs | e1]] eqn:Hd;
      intros H; inversion H; subst.
    split; [exact (darken_colors_stop _ _ _ Hd) | reflexivity].
  - unfold halt. intros H; inversion H; subst. split; [exact I | reflexivity].
Qed.

Lemma configure_stop {E : Externals} (o : options) (w w' : world) (e : stop) :
  configure o w = (w', Stop e) -> e = Exit 64 \/ is_raise e.
Proof.
  unfold configure, check_source, canvas_size, Image_open, bind.
  destruct (negb (truthy_str (opt_gradient o)) && negb (truthy_str (opt_image o)));
    [unfold print, emit, exit, halt; intros H; inversion H; left; reflexivity |].
  destruct (negb (in_gradient (opt_gradient o)) && negb (truthy_str (opt_image o)));
    [unfold print, emit, exit, halt; intros H; inversion H; left; reflexivity |].
  destruct (truthy_str (opt_image o)).
  - destruct (truthy_str (opt_gradient o)); cbn [when];
      destruct (opt_image o) as [path |];
      try destruct (image_open path);
      destruct (truthy_int (opt_width o) || truthy_int (opt_height o));
      cbn [when]; unfold bind, print, emit, defined, halt, ret;
      intros H; inversion H; right; exact I.
  - unfold ret.
    destruct (le_zero (opt_width o) || le_zero (opt_height o)).
    + unfold print, emit, exit, halt. intros H; inversion H. left; reflexivity.
    + destruct (opt_width o), (opt_height o);
        unfold bind, defined, halt, ret; intros H; inversion H; right; exact I.
Qed.

Lemma render_outcome {E : Externals} (o : options) (bg : option image)
    (size : Z * Z) (w0 w : world) (r : res unit) :
  Forall quiet_event (log w0) ->
  render o bg size w0 = (w, r) ->
  (r = Stop (Exit 0) /\ saves (log w) = [opt_filename o]) \/
  (exists e, r = Stop e /\ (e = Exit 1 \/ e = Exit 64 \/ is_raise e) /\
             Forall quiet_event (log w)).
Proof.
  intros Hq H.
  destruct (generate_points (opt_n_points o) size (5 # 4) (opt_decluster o)
              (rand w0)) as [g1 [pts | e]] eqn:Hg.
  - destruct (falsy_triangulation (delaunay_triangulation pts)) eqn:Hf.
    + rewrite (render_failed o bg size w0 Hg Hf) in H.
      inversion H; subst; clear H. right. exists (Exit 1).
      split; [reflexivity |]. split; [left; reflexivity |]. cbn [log].
      apply Forall_app. split; [exact Hq | repeat constructor].
    + destruct (delaunay_triangulation pts) as [[| t tris] |] eqn:Hd;
        try discriminate.
      assert (Hq1 : Forall quiet_event (log w0 ++ [Triangulate pts])).
      { apply Forall_app. split; [exact Hq | repeat constructor]. }
      destruct (assign_colors o bg size (t :: tris)
                  (map (fun t0 => cart_to_screen t0 size) (t :: tris)))
        as [colors0 | e] eqn:Ha.
      * destruct (darken o colors0
                    {| rand := g1; log := log w0 ++ [Triangulate pts] |})
          as [w3 [colors | e]] eqn:Hk.
        -- destruct (render_completes o bg size w0 Hg Hd
                       ltac:(discriminate) Ha Hk) as [Hrun _].
           rewrite Hrun in H. inversion H; subst; clear H. left.
           split; [reflexivity |]. cbn [log].
           rewrite saves_app, (saves_quiet Hq). cbn [app saves].
           apply saves_paint_events.
        -- destruct (darken_stop _ _ _ Hk) as [He Hl].
           assert (Hrun : render o bg size w0 = (w3, Stop e)).
           { unfold render. cbv zeta. unfold bind at 1. unfold with_random.
             rewrite Hg. unfold bind at 1. unfold emit at 1. rewrite Hd.
             cbn [falsy_triangulation rand log].
             unfold bind at 1. unfold lift_res. rewrite Ha.
             unfold bind at 1. rewrite Hk. reflexivity. }
           rewrite Hrun in H. inversion H; subst; clear H. right. exists e.
           split; [reflexivity |]. split; [right; right; exact He |].
           rewrite Hl. exact Hq1.
      * assert (Hrun : render o bg size w0
                       = ({| rand := g1; log := log w0 ++ [Triangulate pts] |},
                          Stop e)).
        { unfold render. cbv zeta. unfold bind at 1. unfold with_random.
          rewrite Hg. unfold bind at 1. unfold emit at 1. rewrite Hd.
          cbn [falsy_triangulation rand log].
          unfold bind at 1. unfold lift_res. rewrite Ha. reflexivity. }
        rewrite Hrun in H. inversion H; subst; clear H. right. exists e.
        split; [reflexivity |].
        split; [right; right; exact (assign_colors_stop _ _ _ _ _ Ha) |].
        exact Hq1.
  - assert (Hrun : render o bg size w0
                   = ({| rand := g1; log := log w0 |}, Stop e)).
    { unfold render. cbv zeta. unfold bind at 1. unfold with_random.
      rewrite Hg. reflexivity. }
    rewrite Hrun in H. inversion H; subst; clear H. right. exists e.
    split; [reflexivity |].
    split; [right; right; exact (generate_points_stop _ _ _ _ _ Hg) |].
    exact Hq.
Qed.

(** X14: the script never runs off its end, and when it stops by
    [sys.exit] the code is 0, 1 or 64.  Exit code 0 means that exactly one
    file was saved, under the configured name; exit code 1 or 64 means that
    no image was created, no polygon drawn and no file saved. *)
Theorem run_outcome {E : Externals} (o : options) (g : rng) (w : world)
    (r : res unit) :
  run o g = (w, r) ->
  (forall u, r <> Ret u) /\
  (forall code, r = Stop (Exit code) -> code = 0 \/ code = 1 \/ code = 64) /\
  (r = Stop (Exit 0) -> saves (log w) = [opt_filename o]) /\
  (r = Stop (Exit 1) \/ r = Stop (Exit 64) -> Forall quiet_event (log w)).
Proof.
  intros H.
  assert (Hout :
    (r = Stop (Exit 0) /\ saves (log w) = [opt_filename o]) \/
    (exists e, r = Stop e /\ (e = Exit 1 \/ e = Exit 64 \/ is_raise e) /\
               Forall quiet_event (log w))).
  { destruct (configure o (fresh g)) as [w1 [[bg size] | e]] eqn:Hc.
    - destruct (configure_log _ _ Hc) as (_ & evs & Hl & Hev).
      cbn [fresh log app] in Hl. subst evs.
      rewrite (run_configured _ _ Hc) in H.
      exact (render_outcome o bg size w1 (config_event_quiet Hev) H).
    - assert (Hrun : run o g = (w1, Stop e)).
      { unfold run, main, bind. fold (fresh g). rewrite Hc. reflexivity. }
      rewrite Hrun in H. inversion H; subst; clear H. right. exists e.
      split; [reflexivity |].
      destruct (configure_log _ _ Hc) as (_ & evs & Hl & Hev).
      cbn [fresh log app] in Hl. subst evs.
      split; [| exact (config_event_quiet Hev)].
      destruct (configure_stop _ _ Hc) as [-> | He];
        [right; left; reflexivity | right; right; exact He]. }
  destruct Hout as [[-> Hs] | (e & -> & He & Hq)].
  - repeat split.
    + discriminate.
    + intros code Hc. inversion Hc. left. reflexivity.
    + intros _. exact Hs.
    + intros [Hc | Hc]; discriminate.
  - repeat split.
    + discriminate.
    + intros code Hc. inversion Hc; subst.
      destruct He as [He | [He | He]];
        [inversion He; right; left; reflexivity
        | inversion He; right; right; reflexivity
        | contradiction].
    + intros Hc. inversion Hc; subst.
      destruct He as [He | [He | He]]; [discriminate | discriminate | contradiction].
    + intros _. exact Hq.
Qed.

(** ** Darkening without a positive amount *)

(** X15: a darken amount that is missing or zero leaves the colours as they
    are and draws no random value; a negative amount raises ValueError at
    the first colour, and does nothing when there is no colour. *)
Theorem darken_not_positive (o : options) (colors : list color) (w : world) :
  (truthy_int (opt_darken_amount o) = false ->
   darken o colors w = (w, Ret colors)) /\
  (forall a, opt_darken_amount o = Some a -> a < 0 ->
   darken o colors w
   = (w, match colors with
         | [] => Ret []
         | _ :: _ => Stop (Raise ValueError)
         end)).
Proof.
  split.
  - apply darken_off.
  - intros a Ha Hneg. unfold darken. rewrite Ha. cbn [truthy_int].
    destruct (Z.eqb_spec a 0); [lia |]. cbn [negb].
    unfold bind, defined, ret, with_random.
    destruct colors as [| c cs]; cbn [darken_colors].
    + unfold ret. destruct w; reflexivity.
    + unfold bind, randrange.
      destruct (Z.leb_spec a 0); [| lia]. destruct w; reflexivity.
Qed.

(** ** The distance a candidate is ranked by *)

Section ScanMinimum.
Context {E : Externals}.
Hypothesis sqrt_positive : forall z, 0 < z -> ~ (sqrt (inject_Z z) == 0)%Q.

Lemma In_point_eqb (p : point) (qs : list point) (q : point) :
  ~ In p (q :: qs) -> point_eqb q p = false /\ ~ In p qs.
Proof.
  intros Hn. split.
  - destruct (point_eqb q p) eqn:Hq; [| reflexivity].
    apply point_eqb_eq in Hq. exfalso. apply Hn. left. exact Hq.
  - intros Hin. apply Hn. right. exact Hin.
Qed.

Lemma nearest_scan_minimum_from (p : point) (qs : list point) :
  forall x : Q,
    ~ In p qs -> truthy_dist (Some x) = true ->
    exists m,
      nearest_scan p qs (Some x) = Some m /\
      truthy_dist (Some m) = true /\
      (m = x \/ In m (map (distance p) qs)) /\
      (m <= x)%Q /\
      Forall (fun q => (m <= distance p q)%Q) qs.
Proof.
  induction qs as [| q qs IH]; intros x Hn Hx.
  - exists x. cbn [nearest_scan]. repeat split; try assumption.
    + left; reflexivity.
    + apply Qle_refl.
    + constructor.
  - destruct (In_point_eqb Hn) as [Hq Hn'].
    cbn [nearest_scan]. rewrite Hq, Hx. cbn [negb orb].
    destruct (Qltb (distance p q) x) eqn:Hlt.
    + apply Qltb_true in Hlt.
      destruct (IH (distance p q) Hn' (@distance_true E sqrt_positive p q Hq))
        as (m & Hm & Ht & Hor & Hle & Hall).
      exists m. repeat split; try assumption.
      * right. destruct Hor as [-> | Hin]; [left; reflexivity | right; exact Hin].
      * apply Qle_trans with (y := distance p q);
          [exact Hle | apply Qlt_le_weak; exact Hlt].
      * constructor; assumption.
    + apply Qltb_false in Hlt.
      destruct (IH x Hn' Hx) as (m & Hm & Ht & Hor & Hle & Hall).
      exists m. repeat split; try assumption.
      * destruct Hor as [-> | Hin]; [left; reflexivity | right; right; exact Hin].
      * constructor; [| exact Hall].
        apply Qle_trans with (y := x); assumption.
Qed.

(** X16: the distance a candidate [p] is ranked by is the least distance
    from [p] to the candidates that come before its first occurrence in the
    list; the candidates after it play no part.  (A candidate whose first
    occurrence opens the list has no such distance, see
    [nearest_scan_first].) *)
Theorem nearest_scan_prefix_minimum (p q0 : point) (pre post : list point) :
  ~ In p (q0 :: pre) ->
  exists m,
    nearest_scan p ((q0 :: pre) ++ p :: post) None = Some m /\
    truthy_dist (Some m) = true /\
    In m (map (distance p) (q0 :: pre)) /\
    Forall (fun q => (m <= distance p q)%Q) (q0 :: pre).
Proof.
  intros Hn. rewrite nearest_scan_prefix.
  destruct (In_point_eqb Hn) as [Hq Hn'].
  cbn [nearest_scan]. rewrite Hq.
  destruct (@nearest_scan_minimum_from p pre (distance p q0) Hn'
              (@distance_true E sqrt_positive p q0 Hq))
    as (m & Hm & Ht & Hor & Hle & Hall).
  exists m. repeat split; try assumption.
  - cbn [map]. destruct Hor as [-> | Hin]; [left; reflexivity | right; exact Hin].
  - constructor; assumption.
Qed.

End ScanMinimum.

(** ** The shape of a run that succeeds *)

Lemma darken_colors_draws (amount : Z) (colors out : list color) (g g' : rng) :
  darken_colors amount colors g = (g', Ret out) ->
  source g' = source g /\ drawn g' = (drawn g + length colors)%nat.
Proof.
  revert g g' out. induction colors as [| c cs IH]; intros g g' out H.
  - cbn in H. inversion H; subst. split; [reflexivity | cbn; lia].
  - cbn [darken_colors] in H. unfold bind, randrange in H.
    destruct (amount <=? 0); [discriminate |].
    destruct (darken_colors amount cs _) as [g1 [rest | e]] eqn:Hk;
      [| discriminate].
    unfold ret in H. inversion H; subst; clear H.
    destruct (IH _ _ _ Hk) as [Hs Hd]. cbn [source drawn length] in *.
    split; [exact Hs | lia].
Qed.

Lemma darken_draws (o : options) (colors out : list color) (w w' : world) :
  darken o colors w = (w', Ret out) ->
  source (rand w') = source (rand w) /\
  drawn (rand w')
  = (drawn (rand w)
     + if truthy_int (opt_darken_amount o) then length colors else 0)%nat.
Proof.
  unfold darken. destruct (truthy_int (opt_darken_amount o)).
  - unfold bind, defined. destruct (opt_darken_amount o) as [amount |].
    + unfold ret, with_random.
      destruct (darken_colors amount colors (rand w)) as [g [cs | e]] eqn:Hd;
        intros H; inversion H; subst.
      exact (darken_colors_draws _ _ _ Hd).
    + unfold halt. discriminate.
  - unfold ret. intros H; inversion H; subst. split; [reflexivity | lia].
Qed.

Lemma generate_points_draws {E : Externals} (n : Z) (area : Z * Z) (scale : Q)
    (decluster : bool) (g g' : rng) (pts : list point) :
  generate_points n area scale decluster g = (g', Ret pts) ->
  source g' = source g /\
  drawn g' = (drawn g + 2 * Z.to_nat ((if decluster then 2 else 1) * n))%nat.
Proof.
  intros H. unfold generate_points, bind, lift_res, ret in H.
  cbv beta iota zeta in H.
  destruct (sample_points _ area scale g) as [g1 [points | e]] eqn:Hs;
    [| discriminate].
  apply sample_points_length in Hs. destruct Hs as (_ & Hd & Hsrc).
  destruct decluster.
  - destruct (drop_front _ _); [| discriminate].
    inversion H; subst. split; assumption.
  - inversion H; subst. split; assumption.
Qed.

Lemma render_success {E : Externals} (o : options) (bg : option image)
    (size : Z * Z) (w0 w : world) :
  render o bg size w0 = (w, Stop (Exit 0)) ->
  exists g1 pts tris colors,
    generate_points (opt_n_points o) size (5 # 4) (opt_decluster o) (rand w0)
      = (g1, Ret pts) /\
    delaunay_triangulation pts = Some tris /\ tris <> [] /\
    length colors = length tris /\
    log w = log w0 ++ [Triangulate pts]
            ++ paint_events o size colors
                 (map (fun t => cart_to_screen t size) tris) /\
    source (rand w) = source g1 /\
    drawn (rand w)
    = (drawn g1
       + if truthy_int (opt_darken_amount o) then length tris else 0)%nat.
Proof.
  intros H.
  destruct (generate_points (opt_n_points o) size (5 # 4) (opt_decluster o)
              (rand w0)) as [g1 [pts | e]] eqn:Hg.
  - destruct (falsy_triangulation (delaunay_triangulation pts)) eqn:Hf.
    + rewrite (render_failed o bg size w0 Hg Hf) in H. discriminate.
    + destruct (delaunay_triangulation pts) as [[| t tris] |] eqn:Hd;
        try discriminate.
      destruct (assign_colors o bg size (t :: tris)
                  (map (fun t0 => cart_to_screen t0 size) (t :: tris)))
        as [colors0 | e] eqn:Ha.
      * destruct (darken o colors0
                    {| rand := g1; log := log w0 ++ [Triangulate pts] |})
          as [w3 [colors | e]] eqn:Hk.
        -- destruct (render_completes o bg size w0 Hg Hd
                       ltac:(discriminate) Ha Hk) as [Hrun Hlen].
           rewrite Hrun in H. inversion H; subst; clear H.
           destruct (darken_draws _ _ _ Hk) as [Hs Hdr].
           destruct (darken_log _ _ _ Hk) as [_ Hl0].
           cbn [rand log] in *.
           exists g1, pts, (t :: tris), colors.
           repeat split; try assumption; try discriminate.
           rewrite Hdr. rewrite <- Hlen, Hl0. reflexivity.
        -- exfalso.
           assert (Hrun : render o bg size w0 = (w3, Stop e)).
           { unfold render. cbv zeta. unfold bind at 1. unfold with_random.
             rewrite Hg. unfold bind at 1. unfold emit at 1. rewrite Hd.
             cbn [falsy_triangulation rand log].
             unfold bind at 1. unfold lift_res. rewrite Ha.
             unfold bind at 1. rewrite Hk. reflexivity. }
           rewrite Hrun in H. inversion H; subst.
           exact (proj1 (darken_stop _ _ _ Hk)).
      * exfalso.
        assert (Hrun : render o bg size w0
                       = ({| rand := g1; log := log w0 ++ [Triangulate pts] |},
                          Stop e)).
        { unfold render. cbv zeta. unfold bind at 1. unfold with_random.
          rewrite Hg. unfold bind at 1. unfold emit at 1. rewrite Hd.
          cbn [falsy_triangulation rand log].
          unfold bind at 1. unfold lift_res. rewrite Ha. reflexivity. }
        rewrite Hrun in H. inversion H; subst.
        exact (assign_colors_stop _ _ _ _ _ Ha).
  - exfalso.
    assert (Hrun : render o bg size w0
                   = ({| rand := g1; log := log w0 |}, Stop e)).
    { unfold render. cbv zeta. unfold bind at 1. unfold with_random.
      rewrite Hg. reflexivity. }
    rewrite Hrun in H. inversion H; subst.
    exact (generate_points_stop _ _ _ _ _ Hg).
Qed.

(** X17: a run that exits with code 0 has called the triangulator exactly
    once, on the points generate_points returned for the configured canvas;
    after the configuration messages its events are that call followed by
    the painting of one polygon per triangle of the returned triangulation,
    each the screen flip of its triangle, in order; and it has consumed two
    random draws per candidate generated, plus one per triangle when
    darkening is on. *)
Theorem successful_run_shape {E : Externals} (o : options) (g : rng) (w : world) :
  run o g = (w, Stop (Exit 0)) ->
  exists bg size pre g1 pts tris colors,
    configure o (fresh g) = ({| rand := g; log := pre |}, Ret (bg, size)) /\
    Forall config_event pre /\
    generate_points (opt_n_points o) size (5 # 4) (opt_decluster o) g
      = (g1, Ret pts) /\
    delaunay_triangulation pts = Some tris /\ tris <> [] /\
    length colors = length tris /\
    log w = pre ++ [Triangulate pts]
            ++ paint_events o size colors
                 (map (fun t => cart_to_screen t size) tris) /\
    source (rand w) = source g /\
    drawn (rand w)
    = (drawn g
       + 2 * Z.to_nat ((if opt_decluster o then 2 else 1) * opt_n_points o)
       + if truthy_int (opt_darken_amount o) then length tris else 0)%nat.
Proof.
  intros H.
  destruct (configure o (fresh g)) as [w1 [[bg size] | e]] eqn:Hc.
  - destruct (configure_log _ _ Hc) as (Hr & evs & Hl & Hev).
    cbn [fresh rand log app] in Hr, Hl. subst evs.
    rewrite (run_configured _ _ Hc) in H.
    destruct (render_success _ _ _ _ H)
      as (g1 & pts & tris & colors & Hg & Hd & Hne & Hlen & Hlog & Hs & Hdr).
    rewrite Hr in Hg.
    destruct (generate_points_draws _ _ _ _ _ Hg) as (Hs1 & Hdr1).
    exists bg, size, (log w1), g1, pts, tris, colors.
    repeat split; try assumption.
    + destruct w1 as [r1 l1]. cbn [rand log] in *. subst r1. reflexivity.
    + congruence.
    + lia.
  - exfalso.
    assert (Hrun : run o g = (w1, Stop e)).
    { unfold run, main, bind. fold (fresh g). rewrite Hc. reflexivity. }
    rewrite Hrun in H. inversion H; subst.
    destruct (configure_stop _ _ Hc) as [He | He]; [discriminate | exact He].
Qed.

(** ** More concrete runs *)

Lemma demo_sqrt_positive :
  forall z, 0 < z -> ~ (sqrt (Externals := demo) (inject_Z z) == 0)%Q.
Proof.
  intros z Hz. cbn [sqrt demo]. unfold demo_sqrt. rewrite Qfloor_Z.
  pose proof (proj2 (Z.sqrt_pos z) Hz) as Hs.
  unfold Qeq. cbn [Qnum Qden inject_Z]. lia.
Qed.

Lemma decluster_drops_most_clustered_witness :
  exists dropped,
    rank_points (E := demo) line_points line_points []
      = dropped ++ [(20 # 1, (31, 0))] /\
    length dropped = 2%nat /\
    forall a b, In a dropped -> In b [(20 # 1, (31, 0))] -> (fst a <= fst b)%Q.
Proof.
  apply (@decluster_drops_most_clustered demo line_points 2 [(20 # 1, (31, 0))]).
  vm_compute. reflexivity.
Defined.

Lemma generate_points_decluster_count_witness :
  exists kept,
    generate_points (E := demo) 2 (100, 100) (5 # 4) true line_tape
      = (after_draws line_tape 8, Ret (kept ++ sentinels (100, 100))) /\
    Z.of_nat (length kept) = 2 - Z.of_nat (count_equal (0, 0) line_points) /\
    Forall (fun p => p <> (0, 0) /\ In p [(10, 0); (11, 0); (31, 0)]) kept.
Proof.
  apply (proj1 (@generate_points_decluster_count demo demo_sqrt_positive
                  2 (100, 100) (5 # 4) line_tape (after_draws line_tape 8)
                  (0, 0) [(10, 0); (11, 0); (31, 0)]
                  ltac:(lia) ltac:(vm_compute; reflexivity))).
  vm_compute. discriminate.
Defined.

Lemma generate_points_decluster_collapsed_witness :
  generate_points (E := demo) 3 (1, 1) (5 # 4) true line_tape
  = ({| source := source line_tape;
        drawn := drawn line_tape + 2 * Z.to_nat (2 * 3) |},
     Stop (Raise IndexError)).
Proof.
  apply (@generate_points_decluster_collapsed demo 3 (1, 1) (5 # 4) line_tape).
  - lia.
  - reflexivity.
  - reflexivity.
Defined.

Lemma generate_points_plain_spec_witness :
  exists candidates,
    generate_points (E := demo) 2 (100, 100) (5 # 4) false line_tape
    = ({| source := source line_tape;
          drawn := drawn line_tape + 2 * Z.to_nat 2 |},
       Ret (candidates ++ sentinels (100, 100))) /\
    Z.of_nat (length candidates) = 2 /\
    Forall (in_sampling_region (100, 100) (5 # 4)) candidates.
Proof.
  apply (@generate_points_plain_spec demo 2 100 100 line_tape); lia.
Defined.

Lemma generate_points_result_shape_witness :
  exists kept,
    [(31, 0)] ++ sentinels (100, 100) = kept ++ sentinels (100, 100) /\
    Forall (in_sampling_region (100, 100) (5 # 4)) kept /\
    source (after_draws line_tape 8) = source line_tape /\
    drawn (after_draws line_tape 8)
    = (drawn line_tape + 2 * Z.to_nat ((if true then 2 else 1) * 2))%nat.
Proof.
  apply (@generate_points_result_shape demo 2 100 100 true
           line_tape (after_draws line_tape 8)
           ([(31, 0)] ++ sentinels (100, 100))).
  - lia.
  - lia.
  - vm_compute. reflexivity.
Defined.


Lemma clamp_coord_cases_witness :
  (((7 # 2) < 0)%Q -> clamp_coord (7 # 2) 3 = 0) /\
  ((0 <= (7 # 2))%Q -> ((7 # 2) <= inject_Z (3 - 1))%Q ->
   clamp_coord (7 # 2) 3 = Qfloor (7 # 2)) /\
  ((inject_Z (3 - 1) < (7 # 2))%Q -> clamp_coord (7 # 2) 3 = 3 - 1).
Proof.
  apply (@clamp_coord_cases (7 # 2) 3). lia.
Defined.

Lemma paint_antialias_witness :
  (length [[(0, 0); (1, 1); (2, 0)]] <= length [(1, 2, 3)])%nat /\
  rand {| rand := line_tape;
          log := [ImageNew (400, 400);
                  DrawPolygon [(0, 0); (4, 4); (8, 0)] (1, 2, 3) None;
                  Resize (100, 100); Save "triangles.png";
                  Print "Image saved to triangles.png"] |}
  = rand (fresh line_tape) /\
  log {| rand := line_tape;
         log := [ImageNew (400, 400);
                 DrawPolygon [(0, 0); (4, 4); (8, 0)] (1, 2, 3) None;
                 Resize (100, 100); Save "triangles.png";
                 Print "Image saved to triangles.png"] |}
  = log (fresh line_tape)
    ++ [ImageNew (fst (100, 100) * 4, snd (100, 100) * 4)]
    ++ draw_events [(1, 2, 3)] (map scale_poly [[(0, 0); (1, 1); (2, 0)]])
         (if opt_lines (set_antialias demo_options)
          then Some (255, 255, 255) else None)
    ++ [Resize (100, 100); Save (opt_filename (set_antialias demo_options));
        Print ("Image saved to " ++ opt_filename (set_antialias demo_options))].
Proof.
  apply (@paint_antialias (set_antialias demo_options) (100, 100) [(1, 2, 3)]
           [[(0, 0); (1, 1); (2, 0)]] (fresh line_tape)).
  - reflexivity.
  - reflexivity.
Defined.

Lemma bad_dimensions_fail_first_witness :
  run (E := demo) (set_size demo_options None (Some 100)) line_tape
  = ({| rand := line_tape;
        log := [Print "Width and height must be greater than zero."] |},
     Stop (Exit 64)).
Proof.
  apply (@bad_dimensions_fail_first demo
           (set_size demo_options None (Some 100)) line_tape).
  - reflexivity.
  - reflexivity.
  - reflexivity.
Defined.

Lemma unreadable_image_stops_witness :
  run (E := demo) (set_image demo_options (Some "missing.png"%string)) line_tape
  = ({| rand := line_tape;
        log := [Print "Image supercedes gradient; gradient selection ignored";
                ImageOpen "missing.png"] |},
     Stop (Raise IOError)).
Proof.
  apply (@unreadable_image_stops demo
           (set_image demo_options (Some "missing.png"%string)) line_tape
           "missing.png").
  - reflexivity.
  - discriminate.
  - reflexivity.
Defined.

Lemma run_outcome_witness :
  saves (log (fst (run (E := ieee) demo_options line_tape)))
  = [opt_filename demo_options].
Proof.
  destruct (@run_outcome ieee demo_options line_tape
              (fst (run (E := ieee) demo_options line_tape))
              (snd (run (E := ieee) demo_options line_tape))
              (surjective_pairing _)) as (_ & _ & Hs & _).
  apply Hs. vm_compute. reflexivity.
Defined.

Lemma nearest_scan_prefix_minimum_witness :
  exists m,
    nearest_scan (E := demo) (11, 0) ([(0, 0); (10, 0)] ++ (11, 0) :: [(31, 0)])
      None = Some m /\
    truthy_dist (Some m) = true /\
    In m (map (distance (E := demo) (11, 0)) [(0, 0); (10, 0)]) /\
    Forall (fun q => (m <= distance (E := demo) (11%Z, 0%Z) q)%Q)
      [(0, 0); (10, 0)].
Proof.
  apply (@nearest_scan_prefix_minimum demo demo_sqrt_positive (11, 0) (0, 0)
           [(10, 0)] [(31, 0)]).
  intros [H | [H | []]]; discriminate.
Defined.

Lemma successful_run_shape_witness :
  exists pts tris,
    delaunay_triangulation (Externals := ieee) pts = Some tris /\ tris <> [].
Proof.
  destruct (@successful_run_shape ieee demo_options line_tape
              (fst (run (E := ieee) demo_options line_tape)))
    as (bg & size & pre & g1 & pts & tris & colors & _ & _ & _ & Hd & Hne & _).
  - vm_compute. reflexivity.
  - exists pts, tris. split; assumption.
Defined.

(** ** Where a new entry goes *)

Section InsertPosition.
Context {E : Externals}.

Lemma insert_scan_position (d : Q) (p : point) (sp : list (Q * point)) :
  StronglySorted by_distance sp ->
  (exists e, In e sp /\ Qltb (fst e) d = false) ->
  exists before after,
    sp = before ++ after /\
    insert_scan d p sp = before ++ (d, p) :: after /\
    Forall (fun e => (fst e < d)%Q) before /\
    Forall (fun e => (d <= fst e)%Q) after.
Proof.
  induction 1 as [| e sp Hs IH Hall]; intros (e0 & Hin & Hlt);
    [contradiction |].
  cbn [insert_scan]. destruct (Qltb (fst e) d) eqn:He.
  - destruct Hin as [-> | Hin]; [congruence |].
    destruct (IH (ex_intro _ e0 (conj Hin Hlt)))
      as (before & after & Hsp & Hins & Hb & Ha).
    exists (e :: before), after. rewrite Hins, Hsp.
    repeat split; try assumption.
    constructor; [apply Qltb_true; exact He | exact Hb].
  - exists [], (e :: sp). apply Qltb_false in He.
    repeat split; [constructor |].
    constructor; [exact He |].
    eapply Forall_impl; [| exact Hall].
    intros a Ha. apply Qle_trans with (y := fst e); assumption.
Qed.

(** X18: in a ranking sorted by distance, a new entry is placed after all
    entries of smaller distance and before all entries of equal or greater
    distance; among candidates of equal distance the one met later is
    therefore ranked earlier. *)
Theorem rank_insert_position (d : Q) (p : point) (sp : list (Q * point)) :
  StronglySorted by_distance sp ->
  exists before after,
    sp = before ++ after /\
    rank_insert d p sp = before ++ (d, p) :: after /\
    Forall (fun e => (fst e < d)%Q) before /\
    Forall (fun e => (d <= fst e)%Q) after.
Proof.
  intros Hs. unfold rank_insert. destruct sp as [| e sp'].
  - exists [], []. repeat split; constructor.
  - destruct (Qltb (fst (last (e :: sp') e)) d) eqn:Hlt.
    + exists (e :: sp'), []. rewrite app_nil_r.
      repeat split; [| constructor].
      apply Qltb_true in Hlt. apply Forall_forall. intros a Ha.
      apply Qle_lt_trans with (y := fst (last (e :: sp') e)); [| exact Hlt].
      exact (sorted_le_last e Hs a Ha).
    + apply insert_scan_position; [exact Hs |].
      exists (last (e :: sp') e). split; [| exact Hlt].
      destruct (exists_last (l := e :: sp') ltac:(discriminate))
        as (l' & a & Heq).
      rewrite Heq, last_last. apply in_or_app. right. left. reflexivity.
Qed.

End InsertPosition.

Lemma rank_insert_position_witness :
  exists before after,
    [(1 # 1, (11, 0)); (10 # 1, (10, 0))] = before ++ after /\
    rank_insert (10 # 1) (5, 5) [(1 # 1, (11, 0)); (10 # 1, (10, 0))]
      = before ++ (10 # 1, (5, 5)) :: after /\
    Forall (fun e => (fst e < 10 # 1)%Q) before /\
    Forall (fun e => (10 # 1 <= fst e)%Q) after.
Proof.
  apply (@rank_insert_position (10 # 1) (5, 5)
           [(1 # 1, (11, 0)); (10 # 1, (10, 0))]).
  repeat constructor; unfold by_distance, Qle; simpl; lia.
Defined.
